(** * S3xistScanner: a shallow embedding of [s3xist_scanner.py]

    The scanner reads candidate bucket names from a wordlist, probes each one
    with [head_bucket] from a pool of worker threads, optionally lists the
    first objects of the buckets it finds and appends its findings to an
    output file.

    Layout of the development:
    - [Py]: the fragment of Python the program relies on (strings, [strip],
      [ljust], exceptions, a state-and-exception monad over the console, the
      file system and the queue counter);
    - [Scanner]: [check_bucket_existence] and [list_bucket_contents];
    - [Worker]: the body of the loop of [worker] for one dequeued item;
    - [Conc]: the threads of [main] and [worker] as an executable
      interleaving semantics over the shared queue, lock, files and console;
    - [Props], [Inv], [Demo]: the vocabulary of the statements, the
      invariants of the threads and sample inputs;
    - the properties of the sequential code, the invariants of the threads,
      and the statements of the specification with their proofs. *)

From Stdlib Require Import Ascii String ZArith Lia.
From stdpp Require Import base option list list_monad gmap strings pretty fin_maps.

Open Scope string_scope.
Open Scope Z_scope.

(* ===================================================================== *)
(** * The Python fragment                                                 *)
(* ===================================================================== *)

Module Py.

(** ** Strings

    A [str] is a Rocq [string]; a character is a code point below 256. *)

Definition nl : string := String (ascii_of_nat 10) EmptyString.
Definition esc : string := String (ascii_of_nat 27) EmptyString.

Definition str_of_list (l : list ascii) : string := string_of_list_ascii l.
Definition list_of_str (s : string) : list ascii := list_ascii_of_string s.

(** [str.isspace] on one character: the code points below 256 that Python
    treats as whitespace are TAB, LF, VT, FF, CR (9-13), the separators FS,
    GS, RS, US (28-31), SPACE (32), NEL (133) and NBSP (160). *)
Definition isspace (c : ascii) : bool :=
  let n := nat_of_ascii c in
  ((9 <=? n)%nat && (n <=? 13)%nat) || ((28 <=? n)%nat && (n <=? 32)%nat)
  || (n =? 133)%nat || (n =? 160)%nat.

Fixpoint lstrip_chars (l : list ascii) : list ascii :=
  match l with
  | c :: l' => if isspace c then lstrip_chars l' else l
  | [] => []
  end.

Definition rstrip_chars (l : list ascii) : list ascii :=
  rev (lstrip_chars (rev l)).

(** [s.strip()] with no argument. *)
Definition strip (s : string) : string :=
  str_of_list (rstrip_chars (lstrip_chars (list_of_str s))).

(** [s.ljust(width)]: pad with spaces on the right up to [width]. *)
Definition ljust (s : string) (width : nat) : string :=
  s +:+ str_of_list (replicate (width - String.length s)%nat " "%char).

(** The concatenation of a list of strings, as a file holds what a sequence
    of [write] calls appended. *)
Definition text (chunks : list string) : string := foldr String.append "" chunks.

(** Truth value of a [str]: the empty string is false. *)
Definition truthy_str (s : string) : bool :=
  match s with EmptyString => false | _ => true end.

(** Truth value of [None]-or-[str] and of [None]-or-[list]. *)
Definition truthy_opt_str (o : option string) : bool :=
  match o with Some s => truthy_str s | None => false end.

Definition truthy_opt_list {A} (o : option (list A)) : bool :=
  match o with Some (_ :: _) => true | _ => false end.

(** ** Exceptions

    Only subclasses of [Exception] are modelled: the two the source names in
    an [except] clause and a generic one carrying its class name.  The
    interpreter's exit signals ([KeyboardInterrupt], [SystemExit]) are not
    raised by any call of the program. *)

Inductive exn : Type :=
| ClientError (response : gmap string (gmap string string)) (msg : string)
| FileNotFoundError (msg : string)
| OtherError (cls : string) (msg : string).

(** [str(e)], as interpolated by the f-strings of the log messages. *)
Definition str_exn (e : exn) : string :=
  match e with
  | ClientError _ msg => msg
  | FileNotFoundError msg => msg
  | OtherError _ msg => msg
  end.

Inductive result (A : Type) : Type :=
| Return (a : A)
| Raise (e : exn).
Arguments Return {A} a.
Arguments Raise {A} e.

(** ** Console, files and the queue counter *)

Inductive log_level := INFO | WARNING | ERROR.

Inductive event : Type :=
| Print (s : string)
| Log (level : log_level) (s : string).

(** The part of the process state the worker code reads and writes:
    [console] is what [print] and [logging] have emitted so far, [files]
    maps a path to the content of the file, [unwritable] holds the paths
    that [open(path, 'a')] refuses, and [unfinished_tasks] is the counter of
    the [Queue] ([put] increments it, [task_done] decrements it, [join]
    waits for zero). *)
Record world : Type := mkWorld {
  console : list event;
  files : gmap string string;
  unwritable : gset string;
  unfinished_tasks : Z;
}.

Definition emit (ev : event) (w : world) : world :=
  mkWorld (console w ++ [ev]) (files w) (unwritable w) (unfinished_tasks w).

Definition set_files (fs : gmap string string) (w : world) : world :=
  mkWorld (console w) fs (unwritable w) (unfinished_tasks w).

Definition set_unfinished (n : Z) (w : world) : world :=
  mkWorld (console w) (files w) (unwritable w) n.

(** ** The monad of statements: state and exceptions *)

Definition M (A : Type) : Type := world -> result A * world.

Definition ret {A} (a : A) : M A := fun w => (Return a, w).
Definition raise {A} (e : exn) : M A := fun w => (Raise e, w).

Definition bind {A B} (m : M A) (k : A -> M B) : M B :=
  fun w =>
    match m w with
    | (Return a, w') => k a w'
    | (Raise e, w') => (Raise e, w')
    end.

(** [try: body except ... as e: handler e].  The handler receives every
    exception of the body; a handler re-raises what no clause matches. *)
Definition try_except {A} (body : M A) (handler : exn -> M A) : M A :=
  fun w =>
    match body w with
    | (Return a, w') => (Return a, w')
    | (Raise e, w') => handler e w'
    end.

(** The outcome of a call into a library, which returns or raises. *)
Definition call {A} (r : result A) : M A := fun w => (r, w).

Definition print (s : string) : M unit := fun w => (Return tt, emit (Print s) w).
Definition logging (level : log_level) (s : string) : M unit :=
  fun w => (Return tt, emit (Log level s) w).

(** [d[k]] on a dict: [KeyError] when the key is missing. *)
Definition getitem {V} (d : gmap string V) (k : string) : M V :=
  match d !! k with
  | Some v => ret v
  | None => raise (OtherError "KeyError" k)
  end.

(** [open(path, 'a')]: refused on an unwritable path, otherwise the file
    exists afterwards (it is created empty when missing). *)
Definition open_append (path : string) : M unit :=
  fun w =>
    if decide (path ∈ unwritable w)
    then (Raise (OtherError "PermissionError" path), w)
    else (Return tt, set_files (<[path := default "" (files w !! path)]> (files w)) w).

(** [f.write(s)] on a file opened for appending. *)
Definition write (path : string) (s : string) : M unit :=
  fun w => (Return tt, set_files (<[path := default "" (files w !! path) +:+ s]> (files w)) w).

(** [q.task_done()]: [ValueError] when called more often than [put]. *)
Definition task_done : M unit :=
  fun w =>
    if decide (unfinished_tasks w <= 0)
    then (Raise (OtherError "ValueError" "task_done() called too many times"), w)
    else (Return tt, set_unfinished (unfinished_tasks w - 1) w).

End Py.

Export Py.

Notation "x <- m ;; k" := (bind m (fun x => k))
  (at level 100, m at next level, right associativity).

(* ===================================================================== *)
(** * The scanner                                                         *)
(* ===================================================================== *)

Module Scanner.

(** ANSI color codes for terminal output (class [colors]). *)
Module colors.

Definition GREEN : string := esc +:+ "[92m".
Definition RED : string := esc +:+ "[91m".
Definition YELLOW : string := esc +:+ "[93m".
Definition ENDC : string := esc +:+ "[0m".

End colors.

(** The two operations of the boto3 S3 client the program calls.  The client
    is external: all the program sees of a call is that it returns a
    response or raises.  [head_bucket]'s response is not inspected. *)
Record S3Client : Type := {
  head_bucket : string -> result unit;
  list_objects_v2 : string -> Z -> result (gmap string (list (gmap string string)));
}.

(** [e.response.get("Error", {}).get("Code")] *)
Definition error_code (response : gmap string (gmap string string)) : option string :=
  default ∅ (response !! "Error") !! "Code".

Definition check_bucket_existence (s3_client : S3Client) (bucket_name : string)
  : M string :=
  try_except
    (_ <- call (head_bucket s3_client bucket_name) ;;
     ret "FOUND")
    (fun e =>
       match e with
       | ClientError response _ =>
           if decide (error_code response = Some "403") then ret "FOUND"
           else if decide (error_code response = Some "404") then ret "NOT_FOUND"
           else
             _ <- logging WARNING
                    ("An unexpected client error occurred for bucket '"
                       +:+ bucket_name +:+ "': " +:+ str_exn e) ;;
             ret "ERROR"
       | _ =>
           _ <- logging ERROR
                  ("A critical error occurred for bucket '"
                     +:+ bucket_name +:+ "': " +:+ str_exn e) ;;
           ret "ERROR"
       end).

(** The [for obj in response['Contents']] loop of [list_bucket_contents]. *)
Fixpoint collect_keys (contents : list (gmap string string))
    (object_keys : list string) : M (list string) :=
  match contents with
  | [] => ret object_keys
  | obj :: rest =>
      key <- getitem obj "Key" ;;
      _ <- print ("        - " +:+ key) ;;
      collect_keys rest (object_keys ++ [key])
  end.

(** Lists the first few objects of a bucket; [None] is Python's [None]. *)
Definition list_bucket_contents (s3_client : S3Client) (bucket_name : string)
  : M (option (list string)) :=
  try_except
    (response <- call (list_objects_v2 s3_client bucket_name 10) ;;
     match response !! "Contents" with
     | Some contents =>
         _ <- print ("    " +:+ colors.YELLOW +:+ "└── Objects found:" +:+ colors.ENDC) ;;
         object_keys <- collect_keys contents [] ;;
         ret (Some object_keys)
     | None =>
         _ <- print ("    " +:+ colors.YELLOW +:+ "└── Bucket is empty." +:+ colors.ENDC) ;;
         ret (Some [])
     end)
    (fun e =>
       match e with
       | ClientError response _ =>
           _ <- (if decide (error_code response = Some "AccessDenied")
                 then print ("    " +:+ colors.RED
                               +:+ "└── Access Denied to list objects." +:+ colors.ENDC)
                 else logging WARNING
                        ("Could not list objects for " +:+ bucket_name
                           +:+ ": " +:+ str_exn e)) ;;
           ret None
       | _ =>
           _ <- logging ERROR
                  ("A critical error occurred while listing objects for "
                     +:+ bucket_name +:+ ": " +:+ str_exn e) ;;
           ret None
       end).

End Scanner.

Export Scanner.

Module Worker.

(** The strings the sink block hands to [f.write], in order: the bucket line
    and, when [found_objects] is a non-empty list, one line per key. *)
Definition sink_writes (bucket_name : string) (found_objects : option (list string))
  : list string :=
  ("Bucket: " +:+ bucket_name +:+ nl)
    :: (if truthy_opt_list found_objects
        then map (fun obj_key => "  - Object: " +:+ obj_key +:+ nl)
                 (default [] found_objects)
        else []).

Fixpoint write_all (path : string) (chunks : list string) : M unit :=
  match chunks with
  | [] => ret tt
  | s :: rest => _ <- write path s ;; write_all path rest
  end.

(** [with lock: with open(output_file, 'a') as f: ...] as one thread sees it:
    the lock only orders threads and does not change what is written. *)
Definition sink_block (output_file bucket_name : string)
    (found_objects : option (list string)) : M unit :=
  _ <- open_append output_file ;;
  write_all output_file (sink_writes bucket_name found_objects).

Definition found_line (bucket_name : string) : string :=
  colors.GREEN +:+ "[+] FOUND: " +:+ ljust bucket_name 60 +:+ colors.ENDC.

Definition error_line (bucket_name : string) : string :=
  colors.YELLOW +:+ "[!] ERROR: Check logs for bucket "
    +:+ ljust bucket_name 50 +:+ colors.ENDC.

(** The body of the [while True] loop of [worker] for a dequeued
    [bucket_name] that is not the sentinel. *)
Definition worker_iteration (s3_client : S3Client) (should_list_objects : bool)
    (output_file : option string) (bucket_name : string) : M unit :=
  status <- check_bucket_existence s3_client bucket_name ;;
  _ <- (if decide (status = "FOUND") then
          _ <- print (found_line bucket_name) ;;
          found_objects <-
            (if should_list_objects
             then list_bucket_contents s3_client bucket_name
             else ret None) ;;
          match output_file with
          | Some path =>
              if truthy_str path
              then sink_block path bucket_name found_objects
              else ret tt
          | None => ret tt
          end
        else if decide (status = "ERROR") then
          print (error_line bucket_name)
        else ret tt) ;;
  task_done.

(** The same body up to the point where a thread either enters the sink
    block or goes straight to [task_done]: probe, report and listing.  It
    returns the status and [found_objects] ([None] when no listing ran). *)
Definition probe_and_report (s3_client : S3Client) (should_list_objects : bool)
    (bucket_name : string) : M (string * option (list string)) :=
  status <- check_bucket_existence s3_client bucket_name ;;
  if decide (status = "FOUND") then
    _ <- print (found_line bucket_name) ;;
    found_objects <-
      (if should_list_objects
       then list_bucket_contents s3_client bucket_name
       else ret None) ;;
    ret (status, found_objects)
  else if decide (status = "ERROR") then
    _ <- print (error_line bucket_name) ;;
    ret (status, None)
  else ret (status, None).

(** Whether the sink block runs after [probe_and_report]. *)
Definition sink_due (output_file : option string) (status : string) : option string :=
  match output_file with
  | Some path =>
      if decide (status = "FOUND") then
        if truthy_str path then Some path else None
      else None
  | None => None
  end.

End Worker.

Export Worker.

(* ===================================================================== *)
(** * The threads of [main] and [worker]                                  *)
(* ===================================================================== *)

Module Conc.

(** The parsed command line ([args] in [main]). *)
Record Args : Type := {
  profile : string;
  wordlist : string;
  region : string;
  threads : Z;
  list_objects : bool;
  output : option string;
}.

(** What [open(args.wordlist, 'r')] and the iteration over the file yield:
    either [open] raises, or the iterator produces [lines] (each with its
    line terminator) and then ends or raises [err]. *)
Inductive wordlist_file : Type :=
| CannotOpen (e : exn)
| Readable (lines : list string) (err : option exn).

(** Program point of the main thread. *)
Inductive coord_pc : Type :=
| COpen                          (* about to open the wordlist *)
| CFeed (rest : list string)     (* in the [for line in f] loop *)
| CJoin                          (* at [q.join()] *)
| CSentinels (k : nat)           (* [finally]: [k] sentinels still to put *)
| CJoinThreads (i : nat)         (* [finally]: about to join thread [i] *)
| CDone.

(** Program point of a worker thread. *)
Inductive worker_pc : Type :=
| WGet                                              (* at [q.get()] *)
| WExamine (bucket_name : string)                   (* probe, report, list *)
| WLock (path bucket_name : string) (found_objects : option (list string))
                                                    (* at [with lock] *)
| WOpen (path bucket_name : string) (found_objects : option (list string))
                                                    (* lock held, at [open] *)
| WWrite (path : string) (pending : list string)    (* lock held, file open *)
| WTaskDone                                         (* at [q.task_done()] *)
| WExited                                           (* left the loop *)
| WCrashed (e : exn).                               (* ended by an exception *)

(** The whole process: the shared [world], the items of the queue in FIFO
    order ([None] is the sentinel), the holder of the lock, and the program
    points of the main thread and of the workers. *)
Record sys : Type := mkSys {
  shared : world;
  queue : list (option string);
  lock : option nat;
  coord : coord_pc;
  workers : list worker_pc;
}.

(** One observable event per step of a thread. *)
Inductive obs : Type :=
| OpenedWordlist
| SetupFailed (e : exn)
| SkippedLine (line : string)
| Put (item : option string)
| EndOfWordlist
| Joined
| SentinelsDone
| ThreadJoined (i : nat)
| Completed
| Got (i : nat) (item : option string)
| Examined (i : nat) (bucket_name status : string)
| Locked (i : nat)
| Opened (i : nat) (bucket_name : string) (found_objects : option (list string))
| Wrote (i : nat) (s : string)
| Closed (i : nat)
| TaskDone (i : nat)
| Crashed (i : nat) (e : exn).

(** The scheduler picks the thread that moves; for a worker the environment
    also fixes how the remote service answers its client at that moment. *)
Inductive action : Type :=
| ACoord
| AWorker (i : nat) (s3_client : S3Client).

Definition finished (pc : worker_pc) : bool :=
  match pc with WExited | WCrashed _ => true | _ => false end.

Section Process.

Variable args : Args.
Variable wl : wordlist_file.

(** [range(args.threads)] has this many elements. *)
Definition nthreads : nat := Z.to_nat (threads args).

Definition with_shared (w : world) (s : sys) : sys :=
  mkSys w (queue s) (lock s) (coord s) (workers s).

Definition with_coord (pc : coord_pc) (s : sys) : sys :=
  mkSys (shared s) (queue s) (lock s) pc (workers s).

Definition with_worker (i : nat) (pc : worker_pc) (s : sys) : sys :=
  mkSys (shared s) (queue s) (lock s) (coord s) (<[i := pc]> (workers s)).

Definition with_lock (l : option nat) (s : sys) : sys :=
  mkSys (shared s) (queue s) l (coord s) (workers s).

(** [q.put(item)] *)
Definition q_put (item : option string) (s : sys) : sys :=
  mkSys (set_unfinished (unfinished_tasks (shared s) + 1) (shared s))
        (queue s ++ [item]) (lock s) (coord s) (workers s).

(** The state when [main] reaches its [try]: the queue is new (nothing is
    unfinished), the start message is logged and [args.threads] workers have
    been started, each with its own session and client, and wait at
    [q.get()]. *)
Definition main_start (w0 : world) : sys :=
  mkSys (emit (Log INFO ("Starting scan in region: " +:+ region args +:+ " with "
                           +:+ pretty (threads args) +:+ " threads, using profile '"
                           +:+ profile args +:+ "'."))
           (set_unfinished 0 w0))
        [] None COpen (replicate nthreads WGet).

(** The two [except] clauses of [main]. *)
Definition setup_failure (e : exn) : event :=
  match e with
  | FileNotFoundError _ =>
      Log ERROR ("The wordlist file was not found at: " +:+ wordlist args)
  | _ =>
      Log ERROR ("An unexpected error occurred during setup: " +:+ str_exn e)
  end.

Definition completion_message : event :=
  if truthy_opt_str (output args)
  then Log INFO ("Scan complete. Results saved to " +:+ default "" (output args))
  else Log INFO "Scan complete.".

(** One step of the main thread; [None] when it is blocked or done. *)
Definition coord_step (s : sys) : option (sys * obs) :=
  match coord s with
  | COpen =>
      match wl with
      | CannotOpen e =>
          Some (with_coord (CSentinels nthreads)
                  (with_shared (emit (setup_failure e) (shared s)) s),
                SetupFailed e)
      | Readable lines _ => Some (with_coord (CFeed lines) s, OpenedWordlist)
      end
  | CFeed (line :: rest) =>
      let bucket_name := strip line in
      if truthy_str bucket_name
      then Some (with_coord (CFeed rest) (q_put (Some bucket_name) s),
                 Put (Some bucket_name))
      else Some (with_coord (CFeed rest) s, SkippedLine line)
  | CFeed [] =>
      match wl with
      | Readable _ (Some e) =>
          Some (with_coord (CSentinels nthreads)
                  (with_shared (emit (setup_failure e) (shared s)) s),
                SetupFailed e)
      | _ => Some (with_coord CJoin s, EndOfWordlist)
      end
  | CJoin =>
      if decide (unfinished_tasks (shared s) = 0)
      then Some (with_coord (CSentinels nthreads) s, Joined)
      else None
  | CSentinels (S k) => Some (with_coord (CSentinels k) (q_put None s), Put None)
  | CSentinels O => Some (with_coord (CJoinThreads 0) s, SentinelsDone)
  | CJoinThreads i =>
      match workers s !! i with
      | Some pc =>
          if finished pc
          then Some (with_coord (CJoinThreads (S i)) s, ThreadJoined i)
          else None
      | None =>
          Some (with_coord CDone
                  (with_shared (emit completion_message (shared s)) s),
                Completed)
      end
  | CDone => None
  end.

(** One step of worker [i]; [None] when it is blocked or has ended. *)
Definition worker_step (i : nat) (s3_client : S3Client) (s : sys)
  : option (sys * obs) :=
  match workers s !! i with
  | None => None
  | Some WGet =>
      match queue s with
      | [] => None
      | item :: rest =>
          Some (mkSys (shared s) rest (lock s) (coord s)
                  (<[i := match item with
                          | Some bucket_name => WExamine bucket_name
                          | None => WExited
                          end]> (workers s)),
                Got i item)
      end
  | Some (WExamine bucket_name) =>
      match probe_and_report s3_client (list_objects args) bucket_name (shared s) with
      | (Return (status, found_objects), w') =>
          Some (with_worker i
                  match sink_due (output args) status with
                  | Some path => WLock path bucket_name found_objects
                  | None => WTaskDone
                  end
                  (with_shared w' s),
                Examined i bucket_name status)
      | (Raise e, w') =>
          Some (with_worker i (WCrashed e) (with_shared w' s), Crashed i e)
      end
  | Some (WLock path bucket_name found_objects) =>
      match lock s with
      | None =>
          Some (with_worker i (WOpen path bucket_name found_objects)
                  (with_lock (Some i) s),
                Locked i)
      | Some _ => None
      end
  | Some (WOpen path bucket_name found_objects) =>
      match open_append path (shared s) with
      | (Return _, w') =>
          Some (with_worker i (WWrite path (sink_writes bucket_name found_objects))
                  (with_shared w' s),
                Opened i bucket_name found_objects)
      | (Raise e, w') =>
          Some (with_worker i (WCrashed e) (with_lock None (with_shared w' s)),
                Crashed i e)
      end
  | Some (WWrite path (chunk :: pending)) =>
      match write path chunk (shared s) with
      | (Return _, w') =>
          Some (with_worker i (WWrite path pending) (with_shared w' s), Wrote i chunk)
      | (Raise e, w') =>
          Some (with_worker i (WCrashed e) (with_lock None (with_shared w' s)),
                Crashed i e)
      end
  | Some (WWrite path []) =>
      Some (with_worker i WTaskDone (with_lock None s), Closed i)
  | Some WTaskDone =>
      match task_done (shared s) with
      | (Return _, w') => Some (with_worker i WGet (with_shared w' s), TaskDone i)
      | (Raise e, w') =>
          Some (with_worker i (WCrashed e) (with_shared w' s), Crashed i e)
      end
  | Some WExited => None
  | Some (WCrashed _) => None
  end.

Definition step (a : action) (s : sys) : option (sys * obs) :=
  match a with
  | ACoord => coord_step s
  | AWorker i s3_client => worker_step i s3_client s
  end.

(** The executions of the process from [main_start w0], with their traces. *)
Inductive run (w0 : world) : list obs -> sys -> Prop :=
| run_start : run w0 [] (main_start w0)
| run_step tr s a s' o :
    run w0 tr s -> step a s = Some (s', o) -> run w0 (tr ++ [o]) s'.

(** The same executions, computed from a schedule. *)
Fixpoint exec_from (sched : list action) (tr : list obs) (s : sys)
  : option (list obs * sys) :=
  match sched with
  | [] => Some (tr, s)
  | a :: sched' =>
      match step a s with
      | Some (s', o) => exec_from sched' (tr ++ [o]) s'
      | None => None
      end
  end.

Definition exec (w0 : world) (sched : list action) : option (list obs * sys) :=
  exec_from sched [] (main_start w0).

(** No thread can move. *)
Definition stuck (s : sys) : Prop := forall a, step a s = None.

(** The candidates of the wordlist: the stripped lines that are not empty. *)
Definition candidates_of_lines (lines : list string) : list string :=
  filter (fun bucket_name => truthy_str bucket_name = true) (map strip lines).

Definition candidates : list string :=
  match wl with
  | CannotOpen _ => []
  | Readable lines _ => candidates_of_lines lines
  end.

(** The wordlist was opened and read to its end without an exception. *)
Definition read_ok : Prop :=
  match wl with Readable _ None => True | _ => False end.

End Process.

(** ** Reading traces *)

Definition puts (tr : list obs) : list (option string) :=
  omap (fun o => match o with Put item => Some item | _ => None end) tr.

Definition acked (tr : list obs) : list nat :=
  omap (fun o => match o with TaskDone i => Some i | _ => None end) tr.

Definition acks (tr : list obs) : nat := length (acked tr).

Definition gets (i : nat) (tr : list obs) : list (option string) :=
  omap (fun o => match o with
                 | Got j item => if decide (j = i) then Some item else None
                 | _ => None
                 end) tr.



(** The buckets classified FOUND, by any worker, in order. *)
Definition found (tr : list obs) : list string :=
  omap (fun o => match o with
                 | Examined _ bucket_name status =>
                     if decide (status = "FOUND") then Some bucket_name else None
                 | _ => None
                 end) tr.

(** Everything dequeued, by any worker, in order. *)
Definition got_items (tr : list obs) : list (option string) :=
  omap (fun o => match o with Got _ item => Some item | _ => None end) tr.

(** The chunks written to the output file, by any worker, in order. *)
Definition written (tr : list obs) : list string :=
  omap (fun o => match o with Wrote _ chunk => Some chunk | _ => None end) tr.

(** The sink blocks entered so far: bucket and [found_objects] of each. *)
Definition blocks (tr : list obs) : list (string * option (list string)) :=
  omap (fun o => match o with
                 | Opened _ bucket_name found_objects =>
                     Some (bucket_name, found_objects)
                 | _ => None
                 end) tr.

(** The candidates and the number of sentinels among queue items. *)
Definition cands_in (items : list (option string)) : list string := omap id items.

Definition sentinels_in (items : list (option string)) : nat :=
  length (filter (fun item => item = None) items).

End Conc.

Export Conc.

(* ===================================================================== *)
(** * Vocabulary of the properties and sample inputs                      *)
(* ===================================================================== *)

Module Props.

(** The contract of [ListObjectsV2] the program relies on: a response holds
    at most [MaxKeys] entries under ['Contents']. *)
Definition honours_max_keys (s3_client : S3Client) : Prop :=
  forall bucket_name max_keys response contents,
    list_objects_v2 s3_client bucket_name max_keys = Return response ->
    response !! "Contents" = Some contents ->
    (length contents <= Z.to_nat max_keys)%nat.

(** [[obj['Key'] for obj in contents]], [None] when some entry has no key. *)
Definition keys_of (contents : list (gmap string string)) : option (list string) :=
  mapM (fun obj => obj !! "Key") contents.

(** The classification table: the status for each outcome of the probe. *)
Definition status_of (r : result unit) : string :=
  match r with
  | Return _ => "FOUND"
  | Raise (ClientError response _) =>
      if decide (error_code response = Some "403") then "FOUND"
      else if decide (error_code response = Some "404") then "NOT_FOUND"
      else "ERROR"
  | Raise _ => "ERROR"
  end.

(** What [list_bucket_contents] returns for each outcome of the call: the
    keys of the response, the empty list when the response has no
    ['Contents'], [None] when the call raised or an entry has no ['Key']. *)
Definition listing_of (r : result (gmap string (list (gmap string string))))
  : option (list string) :=
  match r with
  | Return response =>
      match response !! "Contents" with
      | Some contents => keys_of contents
      | None => Some []
      end
  | Raise _ => None
  end.

(** The value of [found_objects] when the worker reaches the sink test. *)
Definition found_objects_of (s3_client : S3Client) (should_list_objects : bool)
    (bucket_name : string) : option (list string) :=
  if should_list_objects
  then listing_of (list_objects_v2 s3_client bucket_name 10)
  else None.


(** Two worlds differ at most in their console. *)
Definition same_store (w w' : world) : Prop :=
  files w' = files w /\ unwritable w' = unwritable w
  /\ unfinished_tasks w' = unfinished_tasks w.

Definition is_client_error (e : exn) : bool :=
  match e with ClientError _ _ => true | _ => false end.

(** The line of the sink for one object key and the record of a bucket. *)
Definition object_line (obj_key : string) : string :=
  "  - Object: " +:+ obj_key +:+ nl.

Definition sink_record (bucket_name : string) (keys : list string) : string :=
  "Bucket: " +:+ bucket_name +:+ nl +:+ text (map object_line keys).

(** The content of a file, empty when the file does not exist. *)
Definition content (w : world) (path : string) : string :=
  default "" (files w !! path).

(** The world after the sink record of a bucket was appended to [path]. *)
Definition append_record (path bucket_name : string) (keys : list string)
    (w : world) : world :=
  set_files (<[path := content w path +:+ sink_record bucket_name keys]> (files w)) w.

(** A string has no whitespace at either end. *)
Definition trimmed (s : string) : Prop :=
  match list_of_str s with
  | [] => True
  | c :: _ => isspace c = false
  end
  /\ match rev (list_of_str s) with
     | [] => True
     | c :: _ => isspace c = false
     end.



(** The program refuses its configuration at startup: it ends before the
    scan begins, so the wordlist is never opened and nothing is put in the
    queue. *)
Definition rejected_at_startup (args : Args) (wl : wordlist_file) (w0 : world)
  : Prop :=
  forall tr s, run args wl w0 tr s -> (OpenedWordlist ∉ tr) /\ puts tr = [].

End Props.

Export Props.

Module Inv.

(** A worker that took a candidate and has not acknowledged it. *)
Definition holding (pc : worker_pc) : nat :=
  match pc with WGet | WExited => 0 | _ => 1 end.

Definition exited (pc : worker_pc) : nat :=
  match pc with WExited => 1 | _ => 0 end.

Definition crashed (pc : worker_pc) : bool :=
  match pc with WCrashed _ => true | _ => false end.

(** A worker inside the [with lock] block. *)
Definition in_cs (pc : worker_pc) : bool :=
  match pc with WOpen _ _ _ | WWrite _ _ => true | _ => false end.

(** A worker whose next step needs nothing from the other threads. *)
Definition can_run (pc : worker_pc) : bool :=
  match pc with
  | WExamine _ | WOpen _ _ _ | WWrite _ _ | WTaskDone => true
  | _ => false
  end.

Definition at_lock (pc : worker_pc) : bool :=
  match pc with WLock _ _ _ => true | _ => false end.

(** The main thread has reached the [finally] block. *)
Definition sentinel_phase (pc : coord_pc) : bool :=
  match pc with CSentinels _ | CJoinThreads _ | CDone => true | _ => false end.

Definition lines_of (wl : wordlist_file) : list string :=
  match wl with Readable lines _ => lines | CannotOpen _ => [] end.

Definition is_readable (wl : wordlist_file) : bool :=
  match wl with Readable _ _ => true | CannotOpen _ => false end.

(** What the main thread has put in the queue when it is at [pc]. *)
Definition phase_puts (n : nat) (wl : wordlist_file) (pc : coord_pc)
    (ps : list (option string)) : Prop :=
  match pc with
  | COpen => ps = []
  | CFeed rest =>
      is_readable wl = true /\
      exists read, lines_of wl = (read ++ rest)%list
                   /\ ps = map Some (candidates_of_lines read)
  | CJoin => read_ok wl /\ ps = map Some (candidates wl)
  | CSentinels k =>
      (k <= n)%nat /\ ps = (map Some (candidates wl) ++ replicate (n - k) None)%list
  | CJoinThreads _ | CDone =>
      ps = (map Some (candidates wl) ++ replicate n None)%list
  end.

(** A bound on the steps still to come, used to show that a scan can
    always be run to its end: the weight of a queue item covers the steps
    of the worker that takes it, the weight of a program point the steps
    from there on. *)
Definition item_weight (item : option string) : nat :=
  match item with Some _ => 17 | None => 1 end.

Definition pc_weight (pc : worker_pc) : nat :=
  match pc with
  | WGet | WExited | WCrashed _ => 0
  | WExamine _ => 16
  | WLock _ b fo => 4 + length (sink_writes b fo)
  | WOpen _ b fo => 3 + length (sink_writes b fo)
  | WWrite _ pending => 2 + length pending
  | WTaskDone => 1
  end.

Definition coord_weight (n : nat) (wl : wordlist_file) (pc : coord_pc) : nat :=
  match pc with
  | COpen => 18 * length (lines_of wl) + 3 * n + 6
  | CFeed rest => 18 * length rest + 3 * n + 5
  | CJoin => 3 * n + 4
  | CSentinels k => 2 * k + n + 3
  | CJoinThreads i => (n + 1 - i) + 1
  | CDone => 0
  end.

Definition weight (n : nat) (wl : wordlist_file) (s : sys) : nat :=
  coord_weight n wl (coord s)
  + sum_list_with item_weight (queue s)
  + sum_list_with pc_weight (workers s).

(** An action of the main thread, or of a worker served by [c]. *)
Definition served_by (c : S3Client) (a : action) : Prop :=
  match a with
  | ACoord => True
  | AWorker _ c' => c' = c
  end.

(** The bucket a worker has found and not yet begun to record. *)
Definition waiting (pc : worker_pc) : list string :=
  match pc with
  | WLock _ bucket_name _ | WOpen _ bucket_name _ => [bucket_name]
  | _ => []
  end.

(** An action of the main thread, or of a worker whose client honours
    [MaxKeys]. *)
Definition well_served (a : action) : Prop :=
  match a with
  | ACoord => True
  | AWorker _ c => honours_max_keys c
  end.


(** The chunks the holder of the lock has still to write. *)
Definition pending_of (s : sys) : list string :=
  match lock s with
  | Some i =>
      match workers s !! i with
      | Some (WWrite _ pending) => pending
      | _ => []
      end
  | None => []
  end.

(** The path every sink block writes to. *)
Definition sink_path (args : Args) (path : string) : Prop :=
  output args = Some path /\ truthy_str path = true.

(** The output file can be opened, or no output file was asked for. *)
Definition sink_usable (args : Args) (w0 : world) : Prop :=
  forall path, sink_path args path -> path ∉ unwritable w0.


Record queue_inv (args : Args) (wl : wordlist_file) (tr : list obs) (s : sys)
  : Prop := {
  q_fifo : puts tr = (got_items tr ++ queue s)%list;
  q_phase : phase_puts (nthreads args) wl (coord s) (puts tr);
  q_count :
    unfinished_tasks (shared s) = Z.of_nat (length (puts tr)) - Z.of_nat (acks tr);
  q_work :
    length (cands_in (got_items tr)) = (acks tr + sum_list_with holding (workers s))%nat;
  q_exits :
    sentinels_in (got_items tr) = sum_list_with exited (workers s);
  q_drained :
    read_ok wl -> sentinel_phase (coord s) = true ->
    acks tr = length (candidates wl) /\ Joined ∈ tr;
}.


Record lock_inv (args : Args) (w0 : world) (tr : list obs) (s : sys) : Prop := {
  l_holder :
    forall i, lock s = Some i ->
              exists pc, workers s !! i = Some pc /\ in_cs pc = true;
  l_owned :
    forall i pc, workers s !! i = Some pc -> in_cs pc = true -> lock s = Some i;
  l_path :
    forall i pc, workers s !! i = Some pc ->
      match pc with
      | WLock path _ _ | WOpen path _ _ | WWrite path _ => sink_path args path
      | _ => True
      end;
  l_written :
    (written tr ++ pending_of s)%list
    = concat (map (fun b => sink_writes b.1 b.2) (blocks tr));
  l_files :
    forall path,
      content (shared s) path
      = content w0 path
          +:+ (if decide (sink_path args path) then text (written tr) else "");
  l_unwritable : unwritable (shared s) = unwritable w0;
}.

End Inv.

Export Inv.

Module Demo.

Definition err_response (code : string) : gmap string (gmap string string) :=
  {[ "Error" := {[ "Code" := code ]} ]}.

Definition obj_with_key (k : string) : gmap string string := {[ "Key" := k ]}.

(** A bucket holding 25 objects named ["0"] to ["24"]. *)
Definition big_bucket : list (gmap string string) :=
  map (fun i => obj_with_key (pretty (Z.of_nat i))) (seq 0 25).

(** A service with one listable bucket of 25 objects, one empty bucket, one
    bucket that exists but denies everything, one name that does not exist,
    one name the service answers with a server error; any other name fails
    below the protocol. *)
Definition service : S3Client := {|
  head_bucket b :=
    if String.eqb b "mybucket-test" then Return tt
    else if String.eqb b "emptybucket" then Return tt
    else if String.eqb b "secretbucket"
         then Raise (ClientError (err_response "403") "Forbidden")
    else if String.eqb b "nonexistent-xyz"
         then Raise (ClientError (err_response "404") "Not Found")
    else if String.eqb b "flaky"
         then Raise (ClientError (err_response "500") "Internal Server Error")
    else Raise (OtherError "EndpointConnectionError" "Could not connect");
  list_objects_v2 b max_keys :=
    if String.eqb b "mybucket-test"
    then Return {[ "Contents" := take (Z.to_nat max_keys) big_bucket ]}
    else if String.eqb b "emptybucket" then Return ∅
    else if String.eqb b "secretbucket"
         then Raise (ClientError (err_response "AccessDenied") "Access Denied")
    else Raise (OtherError "EndpointConnectionError" "Could not connect")
|}.

Definition fresh : world := mkWorld [] ∅ ∅ 0.

(** One item taken from the queue and not yet acknowledged. *)
Definition one_pending : world := mkWorld [] ∅ ∅ 1.

Definition readonly_out : world := mkWorld [] ∅ {[ "/srv/ro/out.txt" ]} 0.
Definition readonly_out_pending : world := mkWorld [] ∅ {[ "/srv/ro/out.txt" ]} 1.

Definition scenario_lines : list string :=
  ["mybucket-test" +:+ nl; "" +:+ nl; "  " +:+ nl; "nonexistent-xyz"].

Definition scenario_args (n : Z) (out : option string) : Args := {|
  profile := "audit";
  wordlist := "names.txt";
  region := "us-west-2";
  threads := n;
  list_objects := true;
  output := out;
|}.


(** ** A complete scan with two workers *)

Definition scan_args : Args := scenario_args 2 (Some "out.txt").
Definition scan_wl : wordlist_file := Readable scenario_lines None.

Definition main_moves (n : nat) : list action := replicate n ACoord.
Definition worker_moves (i n : nat) : list action := replicate n (AWorker i service).

(** [main] reads the four lines; worker 0 takes and records
    ["mybucket-test"] while worker 1 takes ["nonexistent-xyz"]; [main]
    passes the barrier, puts two sentinels and joins both workers. *)
Definition scan_sched : list action :=
  (main_moves 6
     ++ [AWorker 0 service; AWorker 1 service; AWorker 0 service; AWorker 1 service]
     ++ worker_moves 0 14 ++ worker_moves 0 1 ++ worker_moves 1 1
     ++ main_moves 4
     ++ [AWorker 1 service; AWorker 0 service]
     ++ main_moves 3)%list.

Definition scan_trace : list obs :=
  Eval vm_compute in
    match exec scan_args scan_wl fresh scan_sched with
    | Some (tr, _) => tr
    | None => []
    end.

Definition scan_final : sys :=
  Eval vm_compute in
    match exec scan_args scan_wl fresh scan_sched with
    | Some (_, s) => s
    | None => main_start scan_args fresh
    end.

(** ** Two workers that both find a bucket *)

Definition pair_args : Args := scenario_args 2 (Some "out.txt").
Definition pair_wl : wordlist_file :=
  Readable ["mybucket-test"; "secretbucket"] None.

(** Both workers reach the sink; worker 1 gets the lock first and has
    written its bucket line while worker 0 waits at the lock. *)
Definition pair_sched : list action :=
  (main_moves 4
     ++ [AWorker 0 service; AWorker 1 service; AWorker 0 service; AWorker 1 service]
     ++ worker_moves 1 3)%list.

Definition pair_trace : list obs :=
  Eval vm_compute in
    match exec pair_args pair_wl fresh pair_sched with
    | Some (tr, _) => tr
    | None => []
    end.

Definition pair_state : sys :=
  Eval vm_compute in
    match exec pair_args pair_wl fresh pair_sched with
    | Some (_, s) => s
    | None => main_start pair_args fresh
    end.

(** ** No worker at all *)

Definition idle_args : Args := scenario_args 0 None.

Definition idle_trace : list obs :=
  Eval vm_compute in
    match exec idle_args scan_wl fresh (main_moves 6) with
    | Some (tr, _) => tr
    | None => []
    end.

Definition idle_state : sys :=
  Eval vm_compute in
    match exec idle_args scan_wl fresh (main_moves 6) with
    | Some (_, s) => s
    | None => main_start idle_args fresh
    end.

(** ** An output file that cannot be opened *)

Definition ro_args : Args := {|
  profile := "audit";
  wordlist := "names.txt";
  region := "us-west-2";
  threads := 1;
  list_objects := false;
  output := Some "/srv/ro/out.txt";
|}.

Definition ro_wl : wordlist_file := Readable ["mybucket-test"] None.

Definition ro_sched : list action := (main_moves 3 ++ worker_moves 0 4)%list.

Definition ro_trace : list obs :=
  Eval vm_compute in
    match exec ro_args ro_wl readonly_out ro_sched with
    | Some (tr, _) => tr
    | None => []
    end.

Definition ro_state : sys :=
  Eval vm_compute in
    match exec ro_args ro_wl readonly_out ro_sched with
    | Some (_, s) => s
    | None => main_start ro_args readonly_out
    end.

(** ** A service that lists an empty bucket and one that denies listing *)




(** ** A listing with an entry that has no key *)

Definition broken_lister : S3Client := {|
  head_bucket b := Return tt;
  list_objects_v2 b max_keys :=
    Return {[ "Contents" := [obj_with_key "a"; ∅; obj_with_key "c"] ]}
|}.

(** ** A worker that has just taken a candidate *)

Definition taken_sched : list action := (main_moves 6 ++ worker_moves 0 1)%list.

Definition taken_trace : list obs :=
  Eval vm_compute in
    match exec scan_args scan_wl fresh taken_sched with
    | Some (tr, _) => tr
    | None => []
    end.

Definition taken_state : sys :=
  Eval vm_compute in
    match exec scan_args scan_wl fresh taken_sched with
    | Some (_, s) => s
    | None => main_start scan_args fresh
    end.

(** ** A complete scan with one worker *)





(** ** A wordlist that cannot be opened, and one whose reading fails *)

Definition missing_wl : wordlist_file :=
  CannotOpen (FileNotFoundError "No such file or directory: 'names.txt'").





End Demo.

(* ===================================================================== *)
(** * Properties of the sequential code                                   *)
(* ===================================================================== *)

Section StringFacts.

Lemma append_cons (c : ascii) (s t : string) :
  String c s +:+ t = String c (s +:+ t).
Proof. reflexivity. Qed.

Lemma append_nil_r (s : string) : s +:+ "" = s.
Proof. induction s as [|c s IH]; [done |]. by rewrite append_cons, IH. Qed.

Lemma append_assoc (s1 s2 s3 : string) : (s1 +:+ s2) +:+ s3 = s1 +:+ (s2 +:+ s3).
Proof. induction s1 as [|c s1 IH]; [done |]. by rewrite !append_cons, IH. Qed.

Lemma text_app (l1 l2 : list string) : text (l1 ++ l2) = text l1 +:+ text l2.
Proof.
  induction l1 as [|x l1 IH]; [done |].
  change (text ((x :: l1) ++ l2)) with (x +:+ text (l1 ++ l2)).
  change (text (x :: l1)) with (x +:+ text l1).
  rewrite IH. symmetry. apply append_assoc.
Qed.

Lemma text_sink_writes bucket_name found_objects :
  text (sink_writes bucket_name found_objects)
  = sink_record bucket_name (default [] found_objects).
Proof.
  unfold sink_writes, sink_record. simpl. rewrite !append_assoc.
  destruct found_objects as [[|k ks]|]; simpl; done.
Qed.

End StringFacts.

(** Unfolding of the monad operations on a given world. *)
Ltac run_monad :=
  unfold bind, ret, raise, call, try_except, print, logging, getitem in *;
  simpl in *.

Section Classifier.

Variable s3_client : S3Client.
Variable bucket_name : string.

Lemma check_bucket_existence_returns (w : world) :
  exists w',
    check_bucket_existence s3_client bucket_name w
    = (Return (status_of (head_bucket s3_client bucket_name)), w')
    /\ files w' = files w
    /\ unwritable w' = unwritable w
    /\ unfinished_tasks w' = unfinished_tasks w.
Proof.
  unfold check_bucket_existence, status_of. run_monad.
  destruct (head_bucket s3_client bucket_name) as [[]|[response msg|msg|cls msg]];
    simpl; try (eexists; split; [reflexivity | done]).
  repeat case_decide; eexists; (split; [reflexivity | done]).
Qed.

Lemma status_of_cases (r : result unit) :
  status_of r = "FOUND" \/ status_of r = "NOT_FOUND" \/ status_of r = "ERROR".
Proof.
  destruct r as [u|[response msg|msg|cls msg]]; simpl; auto.
  repeat case_decide; auto.
Qed.

End Classifier.

Section Listing.

Variable s3_client : S3Client.
Variable bucket_name : string.

Lemma same_store_refl (w : world) : same_store w w.
Proof. by unfold same_store. Qed.

Lemma same_store_emit (w w' : world) (ev : event) :
  same_store w w' -> same_store w (emit ev w').
Proof. by unfold same_store. Qed.

Lemma same_store_trans (w1 w2 w3 : world) :
  same_store w1 w2 -> same_store w2 w3 -> same_store w1 w3.
Proof. unfold same_store. intros (-> & -> & ->) (-> & -> & ->). done. Qed.

(** The loop returns the accumulated keys followed by the key of every
    entry, printing one line per key, or stops with [KeyError] at the first
    entry without a key. *)
Lemma collect_keys_spec (contents : list (gmap string string)) :
  forall (acc : list string) (w : world),
    match keys_of contents with
    | Some keys =>
        exists w', collect_keys contents acc w = (Return (acc ++ keys)%list, w')
                   /\ same_store w w'
                   /\ console w' = (console w ++ map (fun k => Print ("        - " +:+ k)) keys)%list
    | None =>
        exists e w' evs, collect_keys contents acc w = (Raise e, w')
                     /\ is_client_error e = false
                     /\ same_store w w'
                     /\ console w' = (console w ++ evs)%list
    end.
Proof.
  unfold keys_of.
  induction contents as [|obj rest IH]; intros acc w.
  - simpl. exists w. rewrite !app_nil_r. split; [done |].
    split; [apply same_store_refl | done].
  - simpl. run_monad. destruct (obj !! "Key") as [key|] eqn:Hkey; simpl.
    + specialize (IH (acc ++ [key])%list (emit (Print ("        - " +:+ key)) w)).
      destruct (mapM (fun obj0 => obj0 !! "Key") rest) as [keys|]; simpl.
      * destruct IH as (w' & -> & Hst & Hcon). exists w'.
        rewrite <- app_assoc. split; [done |]. split.
        { destruct Hst as (? & ? & ?). by unfold same_store. }
        rewrite Hcon. simpl. by rewrite <- app_assoc.
      * destruct IH as (e & w' & evs & -> & He & Hst & Hcon).
        exists e, w', (Print ("        - " +:+ key) :: evs).
        split; [done |]. split; [done |]. split.
        { destruct Hst as (? & ? & ?). by unfold same_store. }
        rewrite Hcon. simpl. by rewrite <- app_assoc.
    + exists (OtherError "KeyError" "Key"), w, []. rewrite app_nil_r.
      split; [done |]. split; [done |]. split; [apply same_store_refl | done].
Qed.

(** [list_bucket_contents] always returns, and returns [listing_of] the
    outcome of the call; only the console changes. *)
Lemma list_bucket_contents_returns (w : world) :
  exists w',
    list_bucket_contents s3_client bucket_name w
    = (Return (listing_of (list_objects_v2 s3_client bucket_name 10)), w')
    /\ same_store w w'.
Proof.
  unfold list_bucket_contents, listing_of. run_monad.
  destruct (list_objects_v2 s3_client bucket_name 10)
    as [response|[resp msg|msg|cls msg]]; simpl.
  - destruct (response !! "Contents") as [contents|]; simpl.
    + pose proof (collect_keys_spec contents []
                    (emit (Print ("    " +:+ colors.YELLOW +:+ "└── Objects found:"
                                    +:+ colors.ENDC)) w)) as H.
      destruct (keys_of contents) as [keys|].
      * destruct H as (w' & -> & Hst & _). simpl. exists w'. split; [done |].
        destruct Hst as (? & ? & ?). by unfold same_store.
      * destruct H as (e & w' & evs & -> & He & Hst & _).
        destruct e as [r m|m|c m]; [done | |]; simpl; eexists;
          (split; [reflexivity |]); destruct Hst as (? & ? & ?); by unfold same_store.
    + eexists. split; [reflexivity | by unfold same_store].
  - case_decide; simpl; eexists; (split; [reflexivity | by unfold same_store]).
  - eexists. split; [reflexivity | by unfold same_store].
  - eexists. split; [reflexivity | by unfold same_store].
Qed.

(** What a failed or denied listing leaves on the console: a denied listing
    prints one line, any other failure of the call logs one line. *)
Lemma list_bucket_contents_failure_console (w : world) (e : exn) :
  list_objects_v2 s3_client bucket_name 10 = Raise e ->
  exists msg,
    console (list_bucket_contents s3_client bucket_name w).2
    = (console w ++ [match e with
                    | ClientError response _ =>
                        if decide (error_code response = Some "AccessDenied")
                        then Print msg else Log WARNING msg
                    | _ => Log ERROR msg
                    end])%list.
Proof.
  intros He. unfold list_bucket_contents. run_monad. rewrite He. simpl.
  destruct e as [response m|m|c m]; simpl.
  - case_decide; simpl; eexists; reflexivity.
  - eexists; reflexivity.
  - eexists; reflexivity.
Qed.

Lemma list_bucket_contents_empty_console (w : world)
    (response : gmap string (list (gmap string string))) :
  list_objects_v2 s3_client bucket_name 10 = Return response ->
  response !! "Contents" = None ->
  console (list_bucket_contents s3_client bucket_name w).2
  = (console w ++ [Print ("    " +:+ colors.YELLOW +:+ "└── Bucket is empty."
                            +:+ colors.ENDC)])%list.
Proof.
  intros Hr Hc. unfold list_bucket_contents. run_monad. rewrite Hr. simpl.
  by rewrite Hc.
Qed.

Lemma keys_of_length (contents : list (gmap string string)) (keys : list string) :
  keys_of contents = Some keys -> length keys = length contents.
Proof.
  unfold keys_of. intros H. symmetry. by eapply length_mapM.
Qed.

End Listing.

Section WorkerBody.

Variable s3_client : S3Client.
Variable should_list_objects : bool.
Variable bucket_name : string.

Lemma write_all_spec (path : string) (chunks : list string) :
  forall (w : world) (c : string),
    files w !! path = Some c ->
    write_all path chunks w
    = (Return tt, set_files (<[path := c +:+ text chunks]> (files w)) w).
Proof.
  induction chunks as [|x rest IH]; intros w c Hc.
  - simpl. unfold ret. f_equal. destruct w as [co fs un n]; simpl in *.
    unfold set_files; simpl. f_equal.
    change (text []) with "". rewrite append_nil_r. by rewrite insert_id.
  - simpl. run_monad. rewrite Hc. simpl.
    erewrite IH; [| simpl; apply lookup_insert_eq].
    unfold set_files; simpl. by rewrite insert_insert_eq, append_assoc.
Qed.

Lemma sink_block_writable (path : string) (found_objects : option (list string))
    (w : world) :
  path ∉ unwritable w ->
  sink_block path bucket_name found_objects w
  = (Return tt, append_record path bucket_name (default [] found_objects) w).
Proof.
  intros Hw. unfold sink_block, bind, open_append.
  rewrite decide_False by done.
  erewrite write_all_spec; [| simpl; apply lookup_insert_eq].
  rewrite text_sink_writes.
  unfold append_record, set_files, content; simpl.
  by rewrite insert_insert_eq.
Qed.

Lemma sink_block_unwritable (path : string) (found_objects : option (list string))
    (w : world) :
  path ∈ unwritable w ->
  sink_block path bucket_name found_objects w
  = (Raise (OtherError "PermissionError" path), w).
Proof.
  intros Hw. unfold sink_block, bind, open_append.
  by rewrite decide_True by done.
Qed.

(** Probe, report and listing always return: the status of the table and
    the listing when one ran; they touch nothing but the console. *)
Lemma probe_and_report_returns (w : world) :
  exists w1,
    probe_and_report s3_client should_list_objects bucket_name w
    = (Return (status_of (head_bucket s3_client bucket_name),
               if decide (status_of (head_bucket s3_client bucket_name) = "FOUND")
               then found_objects_of s3_client should_list_objects bucket_name
               else None), w1)
    /\ same_store w w1.
Proof.
  unfold probe_and_report, found_objects_of.
  destruct (check_bucket_existence_returns s3_client bucket_name w)
    as (w0 & Hc & Hf & Hu & Hn).
  unfold bind at 1. rewrite Hc.
  assert (Hst0 : same_store w w0) by done.
  case_decide as Hs.
  - run_monad. destruct should_list_objects.
    + destruct (list_bucket_contents_returns s3_client bucket_name
                  (emit (Print (found_line bucket_name)) w0)) as (w1 & -> & Hst).
      exists w1. split; [done |].
      eapply same_store_trans; [| exact Hst]. by apply same_store_emit.
    + eexists. split; [reflexivity |]. by apply same_store_emit.
  - case_decide; run_monad; eexists; (split; [reflexivity |]);
      [by apply same_store_emit | done].
Qed.

(** The loop body is probe-and-report, then the sink block when it is due,
    then [task_done]. *)
Lemma worker_iteration_factors (output_file : option string) (w : world) :
  worker_iteration s3_client should_list_objects output_file bucket_name w
  = (sf <- probe_and_report s3_client should_list_objects bucket_name ;;
     _ <- match sink_due output_file sf.1 with
          | Some path => sink_block path bucket_name sf.2
          | None => ret tt
          end ;;
     task_done) w.
Proof.
  unfold worker_iteration, probe_and_report, sink_due, bind, ret, print.
  destruct (check_bucket_existence s3_client bucket_name w) as [[status|e] w0];
    [| done].
  case_decide as Hs.
  - destruct should_list_objects.
    + destruct (list_bucket_contents s3_client bucket_name
                  (emit (Print (found_line bucket_name)) w0)) as [[fo|e] w1];
        simpl; [| done].
      destruct output_file as [path|]; [| done].
      rewrite decide_True by done. by destruct (truthy_str path).
    + simpl. destruct output_file as [path|]; [| done].
      rewrite decide_True by done. by destruct (truthy_str path).
  - case_decide; simpl; (destruct output_file as [path|]; [| done]);
      by rewrite decide_False by done.
Qed.

(** The effect of one pass of the loop body. *)
Lemma worker_iteration_spec (output_file : option string) (w : world) :
  let status := status_of (head_bucket s3_client bucket_name) in
  let keys := default [] (found_objects_of s3_client should_list_objects bucket_name) in
  exists w1, same_store w w1 /\
    worker_iteration s3_client should_list_objects output_file bucket_name w
    = match sink_due output_file status with
      | Some path =>
          if decide (path ∈ unwritable w)
          then (Raise (OtherError "PermissionError" path), w1)
          else task_done (append_record path bucket_name keys w1)
      | None => task_done w1
      end.
Proof.
  intros status keys. rewrite worker_iteration_factors.
  destruct (probe_and_report_returns w) as (w1 & Hp & Hst).
  exists w1. split; [done |].
  unfold bind at 1. rewrite Hp. simpl. fold status.
  destruct (sink_due output_file status) as [path|] eqn:Hdue; [| by run_monad].
  assert (Hfound : status = "FOUND").
  { unfold sink_due in Hdue. destruct output_file; [| done].
    by case_decide. }
  rewrite decide_True by done.
  destruct Hst as (Hf & Hu & Hn).
  destruct (decide (path ∈ unwritable w)) as [Hw|Hw].
  - unfold bind. rewrite sink_block_unwritable by (by rewrite Hu). done.
  - unfold bind. rewrite sink_block_writable by (by rewrite Hu). done.
Qed.

End WorkerBody.

Section Strip.

Lemma list_of_str_of_list (l : list ascii) : list_of_str (str_of_list l) = l.
Proof. apply list_ascii_of_string_of_list_ascii. Qed.

Lemma str_of_list_of_str (s : string) : str_of_list (list_of_str s) = s.
Proof. apply string_of_list_ascii_of_string. Qed.

Lemma truthy_str_spec (s : string) : truthy_str s = true <-> s <> "".
Proof. destruct s; simpl; split; intros; congruence. Qed.



Lemma lstrip_chars_head (l : list ascii) :
  match lstrip_chars l with [] => True | c :: _ => isspace c = false end.
Proof.
  induction l as [|c l IH]; [done |].
  simpl. destruct (isspace c) eqn:Hc; [done |]. by rewrite Hc.
Qed.

Lemma lstrip_chars_snoc (l : list ascii) (c : ascii) :
  isspace c = false -> lstrip_chars (l ++ [c]) = (lstrip_chars l ++ [c])%list.
Proof.
  intros Hc. induction l as [|d l IH]; simpl; [by rewrite Hc |].
  by destruct (isspace d).
Qed.


Lemma rstrip_chars_cons (c : ascii) (l : list ascii) :
  isspace c = false -> rstrip_chars (c :: l) = c :: rstrip_chars l.
Proof.
  intros Hc. unfold rstrip_chars. simpl.
  rewrite lstrip_chars_snoc by done. by rewrite rev_app_distr.
Qed.




Lemma strip_trimmed (s : string) : trimmed (strip s).
Proof.
  unfold trimmed, strip. rewrite list_of_str_of_list. split.
  - pose proof (lstrip_chars_head (list_of_str s)) as H.
    destruct (lstrip_chars (list_of_str s)) as [|c l]; [done |].
    by rewrite rstrip_chars_cons.
  - unfold rstrip_chars. rewrite rev_involutive. apply lstrip_chars_head.
Qed.


Lemma candidates_of_lines_app (l1 l2 : list string) :
  candidates_of_lines (l1 ++ l2)
  = (candidates_of_lines l1 ++ candidates_of_lines l2)%list.
Proof. unfold candidates_of_lines. by rewrite map_app, filter_app. Qed.

Lemma candidates_of_lines_cons (line : string) (lines : list string) :
  candidates_of_lines (line :: lines)
  = if truthy_str (strip line)
    then strip line :: candidates_of_lines lines
    else candidates_of_lines lines.
Proof.
  unfold candidates_of_lines. simpl. rewrite filter_cons.
  destruct (truthy_str (strip line)) eqn:H; case_decide; congruence.
Qed.


End Strip.

(* ===================================================================== *)
(** * Properties of the threads                                           *)
(* ===================================================================== *)

Section Traces.

Lemma puts_snoc (tr : list obs) (o : obs) :
  puts (tr ++ [o]) = (puts tr ++ match o with Put item => [item] | _ => [] end)%list.
Proof. unfold puts. rewrite omap_app. by destruct o. Qed.

Lemma acks_snoc (tr : list obs) (o : obs) :
  acks (tr ++ [o]) = (acks tr + match o with TaskDone _ => 1 | _ => 0 end)%nat.
Proof.
  unfold acks, acked. rewrite omap_app, length_app. by destruct o.
Qed.

Lemma got_items_snoc (tr : list obs) (o : obs) :
  got_items (tr ++ [o])
  = (got_items tr ++ match o with Got _ item => [item] | _ => [] end)%list.
Proof. unfold got_items. rewrite omap_app. by destruct o. Qed.


Lemma written_snoc (tr : list obs) (o : obs) :
  written (tr ++ [o])
  = (written tr ++ match o with Wrote _ chunk => [chunk] | _ => [] end)%list.
Proof. unfold written. rewrite omap_app. by destruct o. Qed.

Lemma blocks_snoc (tr : list obs) (o : obs) :
  blocks (tr ++ [o])
  = (blocks tr ++ match o with
                  | Opened _ b fo => [(b, fo)]
                  | _ => []
                  end)%list.
Proof. unfold blocks. rewrite omap_app. by destruct o. Qed.

Lemma cands_in_app (l1 l2 : list (option string)) :
  cands_in (l1 ++ l2) = (cands_in l1 ++ cands_in l2)%list.
Proof. apply omap_app. Qed.

Lemma cands_in_map_Some (cs : list string) : cands_in (map Some cs) = cs.
Proof. unfold cands_in. induction cs; simpl; [done | by f_equal]. Qed.

Lemma cands_in_replicate_None (n : nat) : cands_in (replicate n None) = [].
Proof. unfold cands_in. induction n; simpl; done. Qed.

Lemma sentinels_in_app (l1 l2 : list (option string)) :
  sentinels_in (l1 ++ l2) = (sentinels_in l1 + sentinels_in l2)%nat.
Proof. unfold sentinels_in. by rewrite filter_app, length_app. Qed.

Lemma sentinels_in_map_Some (cs : list string) : sentinels_in (map Some cs) = 0%nat.
Proof.
  unfold sentinels_in. induction cs as [|c cs IH]; [done |].
  change (map Some (c :: cs)) with (Some c :: map Some cs).
  rewrite filter_cons, decide_False by done. exact IH.
Qed.

Lemma sentinels_in_replicate_None (n : nat) :
  sentinels_in (replicate n None) = n.
Proof.
  unfold sentinels_in. induction n as [|n IH]; [done |].
  change (replicate (S n) (@None string)) with (@None string :: replicate n None).
  rewrite filter_cons, decide_True by done. simpl. by f_equal.
Qed.

Lemma sum_list_with_insert {A} (f : A -> nat) (l : list A) (i : nat) (x y : A) :
  l !! i = Some x ->
  (sum_list_with f (<[i := y]> l) + f x = sum_list_with f l + f y)%nat.
Proof.
  revert i. induction l as [|a l IH]; intros i Hi; [done |].
  destruct i as [|i]; simpl in *.
  - injection Hi as ->. lia.
  - specialize (IH i Hi). lia.
Qed.

Lemma sum_list_with_lookup {A} (f : A -> nat) (l : list A) (i : nat) (x : A) :
  l !! i = Some x -> (f x <= sum_list_with f l)%nat.
Proof.
  intros H. apply sum_list_with_in. by eapply list_elem_of_lookup_2.
Qed.

Lemma sum_list_with_replicate {A} (f : A -> nat) (n : nat) (x : A) :
  sum_list_with f (replicate n x) = (n * f x)%nat.
Proof. induction n as [|n IH]; simpl; [done | by rewrite IH]. Qed.

End Traces.

(** Case analysis on a step: one goal per enabled transition. *)
Ltac step_cases H :=
  unfold step, coord_step, worker_step in H;
  repeat
    (match type of H with
     | context [match ?x with _ => _ end] => destruct x eqn:?
     | context [if ?x then _ else _] => destruct x eqn:?
     end;
     try discriminate H);
  injection H as <- <-.

Section Structure.

Variable args : Args.
Variable w0 : world.

Lemma run_workers_length (wl : wordlist_file) (tr : list obs) (s : sys) :
  run args wl w0 tr s -> length (workers s) = nthreads args.
Proof.
  induction 1 as [|tr s a s' o Hrun IH Hstep].
  - simpl. apply length_replicate.
  - destruct a as [|i c]; step_cases Hstep; simpl;
      rewrite ?length_insert; exact IH.
Qed.

End Structure.

Section LockDiscipline.

Variable args : Args.
Variable w0 : world.

Lemma sink_due_path (status path : string) :
  sink_due (output args) status = Some path ->
  sink_path args path /\ status = "FOUND".
Proof.
  unfold sink_due, sink_path. destruct (output args) as [p|]; [| done].
  case_decide; [| done]. destruct (truthy_str p) eqn:Hp; [| done].
  intros [= <-]. done.
Qed.

Lemma lock_inv_start : lock_inv args w0 [] (main_start args w0).
Proof.
  split; simpl.
  - done.
  - intros i pc Hi. apply lookup_replicate in Hi as [-> _]. done.
  - intros i pc Hi. apply lookup_replicate in Hi as [-> _]. done.
  - done.
  - intros path. unfold content. simpl. case_decide; by rewrite append_nil_r.
  - done.
Qed.

(** Steps of the main thread leave the lock, the workers and the files
    alone. *)
Lemma lock_inv_coord (tr : list obs) (s s' : sys) (o : obs) :
  lock_inv args w0 tr s ->
  lock s' = lock s -> workers s' = workers s ->
  files (shared s') = files (shared s) ->
  unwritable (shared s') = unwritable (shared s) ->
  written (tr ++ [o]) = written tr -> blocks (tr ++ [o]) = blocks tr ->
  lock_inv args w0 (tr ++ [o]) s'.
Proof.
  intros [H1 H2 H3 H4 H5 H6] Hl Hw Hf Hu Hwr Hbl.
  split.
  - rewrite Hl, Hw. exact H1.
  - rewrite Hl, Hw. exact H2.
  - rewrite Hw. exact H3.
  - rewrite Hwr, Hbl. unfold pending_of. rewrite Hl, Hw. exact H4.
  - intros path. rewrite Hwr. unfold content. rewrite Hf. apply H5.
  - by rewrite Hu.
Qed.

(** A worker that moves outside the [with lock] block. *)
Lemma lock_inv_outside (tr : list obs) (s s' : sys) (o : obs)
    (i : nat) (old new : worker_pc) :
  lock_inv args w0 tr s ->
  workers s !! i = Some old -> workers s' = <[i := new]> (workers s) ->
  in_cs old = false -> in_cs new = false ->
  match new with WLock path _ _ => sink_path args path | _ => True end ->
  lock s' = lock s ->
  files (shared s') = files (shared s) ->
  unwritable (shared s') = unwritable (shared s) ->
  written (tr ++ [o]) = written tr -> blocks (tr ++ [o]) = blocks tr ->
  lock_inv args w0 (tr ++ [o]) s'.
Proof.
  intros [H1 H2 H3 H4 H5 H6] Hi Hw Hold Hnew Hpath Hl Hf Hu Hwr Hbl.
  assert (Hother : forall j, lock s = Some j -> j <> i).
  { intros j Hj ->. destruct (H1 _ Hj) as (pc & Hpc & Hcs). congruence. }
  split.
  - rewrite Hl, Hw. intros j Hj. destruct (H1 _ Hj) as (pc & Hpc & Hcs).
    exists pc. split; [| done].
    rewrite list_lookup_insert_ne; [done |]. intros ->. by apply (Hother j).
  - rewrite Hl, Hw. intros j pc Hj Hcs.
    destruct (decide (i = j)) as [->|Hne].
    + rewrite list_lookup_insert_eq in Hj by (by eapply lookup_lt_Some).
      congruence.
    + rewrite list_lookup_insert_ne in Hj by done. by eapply H2.
  - rewrite Hw. intros j pc Hj.
    destruct (decide (i = j)) as [->|Hne].
    + rewrite list_lookup_insert_eq in Hj by (by eapply lookup_lt_Some).
      injection Hj as <-. destruct new; done.
    + rewrite list_lookup_insert_ne in Hj by done. by eapply H3.
  - rewrite Hwr, Hbl, <- H4. f_equal. unfold pending_of. rewrite Hl, Hw.
    destruct (lock s) as [j|] eqn:Hj; [| done].
    rewrite list_lookup_insert_ne; [done |]. intros ->. by apply (Hother j).
  - intros path. rewrite Hwr. unfold content. rewrite Hf. apply H5.
  - by rewrite Hu.
Qed.

Lemma content_set_files_eq (w : world) (fs : gmap string string)
    (path : string) (c : string) :
  content (set_files (<[path := c]> fs) w) path = c.
Proof. unfold content. simpl. by rewrite lookup_insert_eq. Qed.

Lemma content_set_files_ne (w : world) (path p : string) (c : string) :
  p <> path -> content (set_files (<[path := c]> (files w)) w) p = content w p.
Proof. intros Hne. unfold content. simpl. by rewrite lookup_insert_ne. Qed.

Lemma sink_path_unique (p q : string) :
  sink_path args p -> sink_path args q -> p = q.
Proof. intros [Hp _] [Hq _]. congruence. Qed.

Ltac frame :=
  first [ done
        | rewrite written_snoc; simpl; apply app_nil_r
        | rewrite blocks_snoc; simpl; apply app_nil_r ].

Lemma run_lock_inv (wl : wordlist_file) (tr : list obs) (s : sys) :
  run args wl w0 tr s -> lock_inv args w0 tr s.
Proof.
  induction 1 as [|tr s a s' o Hrun IH Hstep]; [apply lock_inv_start |].
  destruct a as [|i c].
  - step_cases Hstep;
      (eapply lock_inv_coord; [exact IH | frame ..]).
  - step_cases Hstep.
    + eapply lock_inv_outside; [exact IH | eassumption | frame ..].
    + eapply lock_inv_outside; [exact IH | eassumption | frame ..].
    + destruct (probe_and_report_returns c (list_objects args) bucket_name (shared s))
        as (w' & Hp & Hf & Hu & _).
      rewrite Hp in Heqp. injection Heqp as <- <- <-.
      eapply lock_inv_outside; [exact IH | eassumption | try frame ..].
      simpl. eapply sink_due_path. eassumption.
    + destruct (probe_and_report_returns c (list_objects args) bucket_name (shared s))
        as (w' & Hp & Hf & Hu & _).
      rewrite Hp in Heqp. injection Heqp as <- <- <-.
      eapply lock_inv_outside; [exact IH | eassumption | frame ..].
    + destruct (probe_and_report_returns c (list_objects args) bucket_name (shared s))
        as (w' & Hp & _).
      rewrite Hp in Heqp. discriminate.
    + (* the lock is taken *)
      destruct IH as [H1 H2 H3 H4 H5 H6].
      assert (Hlt : (i < length (workers s))%nat) by (by eapply lookup_lt_Some).
      split; simpl.
      * intros j [= <-]. eexists. by rewrite list_lookup_insert_eq.
      * intros j pc Hj Hcs. destruct (decide (i = j)) as [->|Hne]; [done |].
        rewrite list_lookup_insert_ne in Hj by done.
        specialize (H2 _ _ Hj Hcs). congruence.
      * intros j pc Hj. destruct (decide (i = j)) as [->|Hne].
        -- rewrite list_lookup_insert_eq in Hj by done. injection Hj as <-.
           apply (H3 _ _ Heqo0).
        -- rewrite list_lookup_insert_ne in Hj by done. by eapply H3.
      * rewrite written_snoc, blocks_snoc. simpl. rewrite !app_nil_r.
        unfold pending_of in *. simpl. rewrite list_lookup_insert_eq by done.
        rewrite Heqo1 in H4. by rewrite app_nil_r in *.
      * intros path0. rewrite written_snoc. simpl. rewrite app_nil_r. apply H5.
      * done.
    + (* the file is opened *)
      destruct IH as [H1 H2 H3 H4 H5 H6].
      assert (Hlt : (i < length (workers s))%nat) by (by eapply lookup_lt_Some).
      assert (Hlock : lock s = Some i) by (by eapply H2).
      unfold open_append in Heqp. case_decide; [done |].
      injection Heqp as <- <-.
      split; simpl.
      * intros j Hj. assert (j = i) as -> by congruence.
        eexists. by rewrite list_lookup_insert_eq.
      * intros j pc Hj Hcs. destruct (decide (i = j)) as [->|Hne]; [done |].
        rewrite list_lookup_insert_ne in Hj by done. by eapply H2.
      * intros j pc Hj. destruct (decide (i = j)) as [->|Hne].
        -- rewrite list_lookup_insert_eq in Hj by done. injection Hj as <-.
           apply (H3 _ _ Heqo0).
        -- rewrite list_lookup_insert_ne in Hj by done. by eapply H3.
      * rewrite written_snoc, blocks_snoc. simpl. rewrite app_nil_r.
        unfold pending_of in *. simpl. rewrite Hlock in *.
        rewrite list_lookup_insert_eq by done. rewrite Heqo0 in H4.
        rewrite app_nil_r in H4. rewrite H4.
        by rewrite map_app, concat_app; simpl; rewrite app_nil_r.
      * intros p. rewrite written_snoc. simpl. rewrite app_nil_r.
        rewrite <- H5. destruct (decide (p = path)) as [->|Hne].
        -- by rewrite content_set_files_eq.
        -- by rewrite content_set_files_ne.
      * done.
    + (* [open] is refused *)
      destruct IH as [H1 H2 H3 H4 H5 H6].
      assert (Hlt : (i < length (workers s))%nat) by (by eapply lookup_lt_Some).
      assert (Hlock : lock s = Some i) by (by eapply H2).
      unfold open_append in Heqp. case_decide; [| done].
      injection Heqp as <- <-.
      split; simpl.
      * done.
      * intros j pc Hj Hcs. destruct (decide (i = j)) as [->|Hne].
        -- rewrite list_lookup_insert_eq in Hj by done. by injection Hj as <-.
        -- rewrite list_lookup_insert_ne in Hj by done.
           specialize (H2 _ _ Hj Hcs). congruence.
      * intros j pc Hj. destruct (decide (i = j)) as [->|Hne].
        -- rewrite list_lookup_insert_eq in Hj by done. by injection Hj as <-.
        -- rewrite list_lookup_insert_ne in Hj by done. by eapply H3.
      * rewrite written_snoc, blocks_snoc. simpl. rewrite !app_nil_r.
        unfold pending_of in *. simpl. rewrite Hlock, Heqo0 in H4.
        by rewrite app_nil_r in *.
      * intros p. rewrite written_snoc. simpl. rewrite app_nil_r. apply H5.
      * done.
    + (* the file is closed and the lock released *)
      destruct IH as [H1 H2 H3 H4 H5 H6].
      assert (Hlt : (i < length (workers s))%nat) by (by eapply lookup_lt_Some).
      assert (Hlock : lock s = Some i) by (by eapply H2).
      split; simpl.
      * done.
      * intros j pc Hj Hcs. destruct (decide (i = j)) as [->|Hne].
        -- rewrite list_lookup_insert_eq in Hj by done. by injection Hj as <-.
        -- rewrite list_lookup_insert_ne in Hj by done.
           specialize (H2 _ _ Hj Hcs). congruence.
      * intros j pc Hj. destruct (decide (i = j)) as [->|Hne].
        -- rewrite list_lookup_insert_eq in Hj by done. by injection Hj as <-.
        -- rewrite list_lookup_insert_ne in Hj by done. by eapply H3.
      * rewrite written_snoc, blocks_snoc. simpl. rewrite !app_nil_r.
        unfold pending_of in *. simpl. rewrite Hlock, Heqo0 in H4.
        by rewrite app_nil_r in *.
      * intros p. rewrite written_snoc. simpl. rewrite app_nil_r. apply H5.
      * done.
    + (* one chunk is written *)
      destruct IH as [H1 H2 H3 H4 H5 H6].
      assert (Hlt : (i < length (workers s))%nat) by (by eapply lookup_lt_Some).
      assert (Hlock : lock s = Some i) by (by eapply H2).
      assert (Hpath : sink_path args path) by apply (H3 _ _ Heqo0).
      unfold write in Heqp. injection Heqp as <- <-.
      split; simpl.
      * intros j Hj. assert (j = i) as -> by congruence.
        eexists. by rewrite list_lookup_insert_eq.
      * intros j pc Hj Hcs. destruct (decide (i = j)) as [->|Hne]; [done |].
        rewrite list_lookup_insert_ne in Hj by done. by eapply H2.
      * intros j pc Hj. destruct (decide (i = j)) as [->|Hne].
        -- rewrite list_lookup_insert_eq in Hj by done. by injection Hj as <-.
        -- rewrite list_lookup_insert_ne in Hj by done. by eapply H3.
      * rewrite written_snoc, blocks_snoc. simpl. rewrite app_nil_r.
        unfold pending_of in *. simpl. rewrite Hlock in *.
        rewrite list_lookup_insert_eq by done. rewrite Heqo0 in H4.
        by rewrite <- app_assoc.
      * intros p. rewrite written_snoc. simpl.
        destruct (decide (p = path)) as [->|Hne].
        -- rewrite content_set_files_eq. fold (content (shared s) path).
           rewrite H5, !decide_True by done.
           rewrite text_app. simpl. by rewrite append_nil_r, append_assoc.
        -- rewrite content_set_files_ne by done. rewrite H5.
           rewrite !decide_False; [done | |];
             intros Hp; apply Hne; by eapply sink_path_unique.
      * done.
    + unfold write in Heqp. discriminate.
    + (* the item is acknowledged *)
      unfold task_done in Heqp. case_decide; [done |]. injection Heqp as <- <-.
      eapply lock_inv_outside; [exact IH | eassumption | frame ..].
    + unfold task_done in Heqp. case_decide; [| done]. injection Heqp as <- <-.
      eapply lock_inv_outside; [exact IH | eassumption | frame ..].
Qed.

End LockDiscipline.

Section QueueProtocol.

Variable args : Args.
Variable w0 : world.

Lemma queue_inv_start (wl : wordlist_file) :
  queue_inv args wl [] (main_start args w0).
Proof.
  split; simpl; try done.
  - rewrite sum_list_with_replicate. simpl. lia.
  - rewrite sum_list_with_replicate. simpl. unfold sentinels_in. simpl. lia.
Qed.

Lemma sum_list_with_insert_same {A} (f : A -> nat) (l : list A) (i : nat) (x y : A) :
  l !! i = Some x -> f y = f x ->
  sum_list_with f (<[i := y]> l) = sum_list_with f l.
Proof.
  intros Hi Hf. pose proof (sum_list_with_insert f l i x y Hi). lia.
Qed.

(** A step that neither touches the queue nor acknowledges anything. *)
Lemma queue_inv_silent (wl : wordlist_file) (tr : list obs) (s s' : sys) (o : obs) :
  queue_inv args wl tr s ->
  queue s' = queue s -> coord s' = coord s ->
  unfinished_tasks (shared s') = unfinished_tasks (shared s) ->
  sum_list_with holding (workers s') = sum_list_with holding (workers s) ->
  sum_list_with exited (workers s') = sum_list_with exited (workers s) ->
  puts (tr ++ [o]) = puts tr -> got_items (tr ++ [o]) = got_items tr ->
  acks (tr ++ [o]) = acks tr ->
  queue_inv args wl (tr ++ [o]) s'.
Proof.
  intros [F P C W E D] Hq Hc Hu Hh He Hp Hg Ha.
  split; rewrite ?Hq, ?Hc, ?Hu, ?Hh, ?He, ?Hp, ?Hg, ?Ha; try done.
  intros Hr Hs. destruct (D Hr Hs) as [? ?]. split; [done |].
  apply elem_of_app. by left.
Qed.

Lemma phase_puts_cands (wl : wordlist_file) (pc : coord_pc)
    (ps : list (option string)) :
  phase_puts (nthreads args) wl pc ps -> sentinel_phase pc = true ->
  cands_in ps = candidates wl.
Proof.
  destruct pc; simpl; try done.
  - intros [_ ->] _. by rewrite cands_in_app, cands_in_map_Some,
                        cands_in_replicate_None, app_nil_r.
  - intros -> _. by rewrite cands_in_app, cands_in_map_Some,
                        cands_in_replicate_None, app_nil_r.
  - intros -> _. by rewrite cands_in_app, cands_in_map_Some,
                        cands_in_replicate_None, app_nil_r.
Qed.

Ltac silent :=
  first [ done
        | rewrite puts_snoc; simpl; apply app_nil_r
        | rewrite got_items_snoc; simpl; apply app_nil_r
        | rewrite acks_snoc; simpl; lia
        | simpl; eapply sum_list_with_insert_same; [eassumption | done] ].

Lemma run_queue_inv (wl : wordlist_file) (tr : list obs) (s : sys) :
  run args wl w0 tr s -> queue_inv args wl tr s.
Proof.
  induction 1 as [|tr s a s' o Hrun IH Hstep]; [apply queue_inv_start |].
  destruct a as [|i c].
  - step_cases Hstep; destruct IH as [F P C W E D];
      rewrite Heqc in P, D; simpl in P, D;
      split; simpl;
      rewrite ?puts_snoc, ?got_items_snoc, ?acks_snoc; simpl;
      rewrite ?app_nil_r, ?Nat.add_0_r; try done.
    + (* open fails *)
      split; [done |]. by rewrite P, Nat.sub_diag.
    + (* open succeeds *)
      split; [done |]. by exists [].
    + (* end of file on a file that could not be opened *)
      by destruct P.
    + (* the iterator raises at the end *)
      destruct P as (_ & read & Hread & ->). simpl in Hread.
      rewrite app_nil_r in Hread. subst read.
      split; [done |]. by rewrite Nat.sub_diag, app_nil_r.
    + (* end of file *)
      destruct P as (_ & read & Hread & ->). simpl in Hread.
      rewrite app_nil_r in Hread. by subst read.
    + (* a candidate is put *)
      rewrite F. by rewrite <- app_assoc.
    + destruct P as (Hr & read & Hread & ->). split; [done |].
      exists (read ++ [s0])%list. rewrite <- app_assoc. split; [done |].
      rewrite candidates_of_lines_app, candidates_of_lines_cons, Heqb.
      by rewrite map_app.
    + rewrite length_app. simpl. lia.
    + (* a blank line is skipped *)
      destruct P as (Hr & read & Hread & ->). split; [done |].
      exists (read ++ [s0])%list. rewrite <- app_assoc. split; [done |].
      rewrite candidates_of_lines_app, candidates_of_lines_cons, Heqb.
      by rewrite app_nil_r.
    + (* the join returns *)
      destruct P as [Hr ->]. split; [done |].
      by rewrite Nat.sub_diag, app_nil_r.
    + intros Hr _. destruct P as [_ HP]. split.
      * rewrite HP, length_map in C. lia.
      * apply elem_of_app. right. by apply list_elem_of_singleton.
    + (* all sentinels are put *)
      destruct P as [_ ->]. by rewrite Nat.sub_0_r.
    + intros Hr Hs. destruct (D Hr Hs). split; [done |].
      apply elem_of_app. by left.
    + (* a sentinel is put *)
      rewrite F. by rewrite <- app_assoc.
    + destruct P as [Hk ->]. split; [lia |].
      rewrite <- app_assoc. f_equal.
      replace (nthreads args - n)%nat with (S (nthreads args - S n)) by lia.
      by rewrite replicate_S_end.
    + rewrite length_app. simpl. lia.
    + intros Hr Hs. destruct (D Hr Hs). split; [done |].
      apply elem_of_app. by left.
    + (* a thread is joined *)
      intros Hr Hs. destruct (D Hr Hs). split; [done |].
      apply elem_of_app. by left.
    + (* completion *)
      intros Hr Hs. destruct (D Hr Hs). split; [done |].
      apply elem_of_app. by left.
  - step_cases Hstep.
    + (* a candidate is taken *)
      destruct IH as [F P C W E D]. rewrite Heql in F.
      pose proof (sum_list_with_insert holding _ i _ (WExamine s0) Heqo0) as Hh.
      pose proof (sum_list_with_insert exited _ i _ (WExamine s0) Heqo0) as He.
      split; simpl;
        rewrite ?puts_snoc, ?got_items_snoc, ?acks_snoc; simpl;
        rewrite ?app_nil_r, ?Nat.add_0_r; try done.
      * rewrite F. by rewrite <- app_assoc.
      * rewrite cands_in_app, length_app. simpl in *. lia.
      * rewrite sentinels_in_app.
        change (sentinels_in [Some s0]) with 0%nat. simpl in *. lia.
      * intros Hr Hs. destruct (D Hr Hs). split; [done |].
        apply elem_of_app. by left.
    + (* a sentinel is taken *)
      destruct IH as [F P C W E D]. rewrite Heql in F.
      pose proof (sum_list_with_insert holding _ i _ WExited Heqo0) as Hh.
      pose proof (sum_list_with_insert exited _ i _ WExited Heqo0) as He.
      split; simpl;
        rewrite ?puts_snoc, ?got_items_snoc, ?acks_snoc; simpl;
        rewrite ?app_nil_r, ?Nat.add_0_r; try done.
      * rewrite F. by rewrite <- app_assoc.
      * rewrite cands_in_app, length_app. simpl in *. lia.
      * rewrite sentinels_in_app.
        change (sentinels_in [@None string]) with 1%nat. simpl in *. lia.
      * intros Hr Hs. destruct (D Hr Hs). split; [done |].
        apply elem_of_app. by left.
    + destruct (probe_and_report_returns c (list_objects args) bucket_name (shared s))
        as (w' & Hp & _ & _ & Hn).
      rewrite Hp in Heqp. injection Heqp as <- <- <-.
      eapply queue_inv_silent; [exact IH | silent ..].
    + destruct (probe_and_report_returns c (list_objects args) bucket_name (shared s))
        as (w' & Hp & _ & _ & Hn).
      rewrite Hp in Heqp. injection Heqp as <- <- <-.
      eapply queue_inv_silent; [exact IH | silent ..].
    + destruct (probe_and_report_returns c (list_objects args) bucket_name (shared s))
        as (w' & Hp & _).
      rewrite Hp in Heqp. discriminate.
    + eapply queue_inv_silent; [exact IH | silent ..].
    + unfold open_append in Heqp. case_decide; [done |]. injection Heqp as <- <-.
      eapply queue_inv_silent; [exact IH | silent ..].
    + unfold open_append in Heqp. case_decide; [| done]. injection Heqp as <- <-.
      eapply queue_inv_silent; [exact IH | silent ..].
    + eapply queue_inv_silent; [exact IH | silent ..].
    + unfold write in Heqp. injection Heqp as <- <-.
      eapply queue_inv_silent; [exact IH | silent ..].
    + unfold write in Heqp. discriminate.
    + (* the item is acknowledged *)
      unfold task_done in Heqp. case_decide; [done |]. injection Heqp as <- <-.
      destruct IH as [F P C W E D].
      pose proof (sum_list_with_insert holding _ i _ WGet Heqo0) as Hh.
      pose proof (sum_list_with_insert exited _ i _ WGet Heqo0) as He.
      split; simpl;
        rewrite ?puts_snoc, ?got_items_snoc, ?acks_snoc; simpl;
        rewrite ?app_nil_r, ?Nat.add_0_r; try done.
      * lia.
      * simpl in *. lia.
      * simpl in *. lia.
      * intros Hr Hs. exfalso. destruct (D Hr Hs) as [Ha _].
        pose proof (phase_puts_cands _ _ _ P Hs) as Hc.
        rewrite F, cands_in_app in Hc.
        apply (f_equal length) in Hc. rewrite length_app in Hc.
        simpl in *. lia.
    + unfold task_done in Heqp. case_decide; [| done]. injection Heqp as <- <-.
      eapply queue_inv_silent; [exact IH | silent ..].
Qed.

End QueueProtocol.

Section WorkerHistories.

Variable args : Args.
Variable w0 : world.


Lemma length_cands_in (items : list (option string)) :
  (length (cands_in items) <= length items)%nat.
Proof.
  induction items as [|[x|] items IH]; [done | |].
  - change (cands_in (Some x :: items)) with (x :: cands_in items). simpl. lia.
  - change (cands_in (None :: items)) with (cands_in items). simpl. lia.
Qed.

(** A worker at [task_done] always finds the counter positive. *)
Lemma run_task_done_positive (wl : wordlist_file) (tr : list obs) (s : sys) (i : nat) :
  run args wl w0 tr s ->
  workers s !! i = Some WTaskDone ->
  0 < unfinished_tasks (shared s).
Proof.
  intros Hrun Hi. destruct (run_queue_inv _ _ _ _ _ Hrun) as [F P C W E D].
  pose proof (sum_list_with_lookup holding _ _ _ Hi) as Hh. simpl in Hh.
  pose proof (length_cands_in (got_items tr)) as Hc.
  apply (f_equal length) in F. rewrite length_app in F. lia.
Qed.

(** With a usable sink no worker ever ends by an exception. *)
Lemma run_no_crash (wl : wordlist_file) (tr : list obs) (s : sys) :
  sink_usable args w0 ->
  run args wl w0 tr s ->
  forall i pc, workers s !! i = Some pc -> crashed pc = false.
Proof.
  intros Hsink. induction 1 as [|tr s a s' o Hrun IH Hstep].
  - intros i pc Hi. simpl in Hi. by apply lookup_replicate in Hi as [-> _].
  - assert (Hupd : forall j new, workers s' = <[j := new]> (workers s) ->
                                 crashed new = false ->
                                 forall i pc, workers s' !! i = Some pc ->
                                              crashed pc = false).
    { intros j new -> Hnew i pc Hi.
      destruct (decide (j = i)) as [->|Hne].
      - apply list_lookup_insert_Some in Hi as [(_ & <- & _)|(? & ?)]; [done |].
        by eapply IH.
      - rewrite list_lookup_insert_ne in Hi by done. by eapply IH. }
    destruct a as [|j c].
    + step_cases Hstep; exact IH.
    + pose proof (run_lock_inv _ _ _ _ _ Hrun) as [H1 H2 H3 H4 H5 H6].
      step_cases Hstep; try (by eapply Hupd; [reflexivity | done]).
      * destruct (probe_and_report_returns c (list_objects args) bucket_name (shared s))
          as (w' & Hp & _).
        rewrite Hp in Heqp. discriminate.
      * unfold open_append in Heqp. case_decide as Hun; [| done].
        exfalso. rewrite H6 in Hun. revert Hun. apply Hsink.
        apply (H3 _ _ Heqo0).
      * pose proof (run_task_done_positive _ _ _ _ Hrun Heqo0).
        unfold task_done in Heqp. case_decide; [lia | done].
Qed.

End WorkerHistories.

Section Progress.

Variable args : Args.
Variable w0 : world.

Lemma length_items (items : list (option string)) :
  length items = (length (cands_in items) + sentinels_in items)%nat.
Proof.
  induction items as [|[x|] items IH]; [done | |].
  - change (cands_in (Some x :: items)) with (x :: cands_in items).
    change (Some x :: items) with ([Some x] ++ items)%list at 2.
    rewrite sentinels_in_app. change (sentinels_in [Some x]) with 0%nat.
    simpl. lia.
  - change (cands_in (None :: items)) with (cands_in items).
    change (@None string :: items) with ([@None string] ++ items)%list at 2.
    rewrite sentinels_in_app. change (sentinels_in [@None string]) with 1%nat.
    simpl. lia.
Qed.

Lemma worker_step_runnable (s : sys) (i : nat) (pc : worker_pc) (c : S3Client) :
  workers s !! i = Some pc -> can_run pc = true ->
  exists s' o, worker_step args i c s = Some (s', o).
Proof.
  intros Hi Hpc. unfold worker_step. rewrite Hi.
  destruct pc as [|b|p b fo|p b fo|p [|chunk pending]| | |e]; try done.
  - destruct (probe_and_report c (list_objects args) b (shared s))
      as [[[st fo]|e] w']; eauto.
  - destruct (open_append p (shared s)) as [[u|e] w']; eauto.
  - eauto.
  - destruct (write p chunk (shared s)) as [[u|e] w']; eauto.
  - destruct (task_done (shared s)) as [[u|e] w']; eauto.
Qed.

Lemma worker_step_at_lock (s : sys) (i : nat) (pc : worker_pc) (c : S3Client) :
  workers s !! i = Some pc -> at_lock pc = true -> lock s = None ->
  exists s' o, worker_step args i c s = Some (s', o).
Proof.
  intros Hi Hpc Hl. unfold worker_step. rewrite Hi.
  destruct pc; try done. rewrite Hl. eauto.
Qed.

Lemma worker_step_get (s : sys) (i : nat) (c : S3Client) :
  workers s !! i = Some WGet -> queue s <> [] ->
  exists s' o, worker_step args i c s = Some (s', o).
Proof.
  intros Hi Hq. unfold worker_step. rewrite Hi.
  destruct (queue s) as [|item rest]; [done |]. eauto.
Qed.

Lemma exists_worker (P : worker_pc -> bool) (ws : list worker_pc) :
  (exists i pc, ws !! i = Some pc /\ P pc = true)
  \/ (forall i pc, ws !! i = Some pc -> P pc = false).
Proof.
  induction ws as [|w ws [(i & pc & Hi & HP)|IH]].
  - right. intros i pc Hi. by destruct i.
  - left. by exists (S i), pc.
  - destruct (P w) eqn:Hw.
    + left. by exists 0%nat, w.
    + right. intros [|i] pc Hi; simpl in Hi; [by injection Hi as <- |].
      by eapply IH.
Qed.

Lemma sum_exited_bound (ws : list worker_pc) :
  (sum_list_with exited ws <= length ws)%nat.
Proof. induction ws as [|[] ws IH]; simpl; lia. Qed.

Lemma sum_exited_lt (ws : list worker_pc) (i : nat) (pc : worker_pc) :
  ws !! i = Some pc -> exited pc = 0%nat ->
  (sum_list_with exited ws < length ws)%nat.
Proof.
  intros Hi Hpc.
  pose proof (sum_list_with_insert exited ws i pc WExited Hi) as H.
  pose proof (sum_exited_bound (<[i := WExited]> ws)) as Hb.
  rewrite length_insert in Hb. simpl in H. lia.
Qed.

Lemma sum_zero_all {A} (f : A -> nat) (l : list A) :
  (forall i x, l !! i = Some x -> f x = 0%nat) -> sum_list_with f l = 0%nat.
Proof.
  induction l as [|a l IH]; intros H; [done |].
  simpl. rewrite (H 0%nat a) by done. rewrite IH; [done |].
  intros i x Hi. by apply (H (S i)).
Qed.

(** The main thread is blocked only at the join barrier or while joining a
    thread that still runs. *)
Lemma coord_step_blocked (wl : wordlist_file) (s : sys) :
  coord_step args wl s = None ->
  (coord s = CJoin /\ unfinished_tasks (shared s) <> 0)
  \/ (exists i pc, coord s = CJoinThreads i /\ workers s !! i = Some pc
                   /\ finished pc = false)
  \/ coord s = CDone.
Proof.
  unfold coord_step. destruct (coord s) as [|[|line rest]| |[|k]|i|] eqn:Hc;
    try done.
  - by destruct wl.
  - by destruct wl as [e|lines [e|]].
  - by destruct (truthy_str (strip line)).
  - case_decide; [done |]. intros _. by left.
  - destruct (workers s !! i) as [pc|] eqn:Hi; [| done].
    destruct (finished pc) eqn:Hf; [done |]. intros _. right. left. eauto.
  - intros _. by right; right.
Qed.

(** Deadlock freedom: with a usable sink and at least one worker (or no
    candidate at all), some thread can move until [main] is done. *)
Lemma run_progress_nocrash (c : S3Client) (wl : wordlist_file)
    (tr : list obs) (s : sys) :
  (forall i pc, workers s !! i = Some pc -> crashed pc = false) ->
  (0 < nthreads args)%nat \/ candidates wl = [] ->
  run args wl w0 tr s ->
  coord s <> CDone ->
  exists a s' o, served_by c a /\ step args wl a s = Some (s', o).
Proof.
  intros Hnc Hn Hrun Hdone.
  destruct (coord_step args wl s) as [[s' o]|] eqn:Hco;
    [by exists ACoord, s', o |].
  pose proof (run_queue_inv _ _ _ _ _ Hrun) as [F P C W E D].
  pose proof (run_lock_inv _ _ _ _ _ Hrun) as [H1 H2 H3 H4 H5 H6].
  pose proof (run_workers_length _ _ _ _ _ Hrun) as Hlen.
  destruct (exists_worker can_run (workers s)) as [(i & pc & Hi & Hpc)|Hnorun].
  { destruct (worker_step_runnable s i pc c Hi Hpc) as (s' & o & Hs).
    by exists (AWorker i c), s', o. }
  destruct (exists_worker at_lock (workers s)) as [(i & pc & Hi & Hpc)|Hnolock].
  { destruct (lock s) as [j|] eqn:Hl.
    - destruct (H1 j eq_refl) as (pcj & Hj & Hcs).
      specialize (Hnorun _ _ Hj). by destruct pcj.
    - destruct (worker_step_at_lock s i pc c Hi Hpc Hl) as (s' & o & Hs).
      by exists (AWorker i c), s', o. }
  assert (Hall : forall i pc, workers s !! i = Some pc -> pc = WGet \/ pc = WExited).
  { intros i pc Hi. specialize (Hnorun _ _ Hi). specialize (Hnolock _ _ Hi).
    specialize (Hnc _ _ Hi). destruct pc; try done; auto. }
  assert (Hhold : sum_list_with holding (workers s) = 0%nat).
  { apply sum_zero_all. intros i pc Hi. by destruct (Hall _ _ Hi) as [-> | ->]. }
  pose proof (length_items (got_items tr)) as Hgot.
  pose proof (length_items (queue s)) as Hque.
  pose proof (f_equal length F) as HlenF. rewrite length_app in HlenF.
  pose proof (f_equal sentinels_in F) as HsenF. rewrite sentinels_in_app in HsenF.
  assert (Hget : forall i, workers s !! i = Some WGet -> queue s <> [] ->
                           exists a s' o, served_by c a
                                          /\ step args wl a s = Some (s', o)).
  { intros i Hi Hq.
    destruct (worker_step_get s i c Hi Hq) as (s' & o & Hs).
    by exists (AWorker i c), s', o. }
  apply coord_step_blocked in Hco as [[Hc Hu]|[(i & pc & Hc & Hi & Hf)|Hc]];
    [| | done].
  - (* blocked at the join barrier *)
    rewrite Hc in P. simpl in P. destruct P as [_ HP].
    rewrite HP, sentinels_in_map_Some in HsenF.
    rewrite HP, length_map in HlenF, C.
    assert (Hq : queue s <> []).
    { intros Hq. rewrite Hq in *. simpl in *. lia. }
    destruct Hn as [Hn | Hn]; [| rewrite Hn in *; simpl in *; lia].
    destruct (workers s !! 0%nat) as [pc0|] eqn:H0.
    + destruct (Hall _ _ H0) as [-> | ->]; [by eapply Hget |].
      pose proof (sum_list_with_lookup exited _ _ _ H0). simpl in *. lia.
    + apply lookup_ge_None in H0. lia.
  - (* blocked while joining thread [i] *)
    rewrite Hc in P. simpl in P.
    rewrite P, sentinels_in_app, sentinels_in_map_Some,
      sentinels_in_replicate_None in HsenF.
    destruct (Hall _ _ Hi) as [-> | ->]; [| done].
    pose proof (sum_exited_lt _ _ _ Hi eq_refl) as Hlt.
    eapply Hget; [eassumption |].
    intros Hq. rewrite Hq in *. simpl in *.
    change (sentinels_in []) with 0%nat in HsenF. lia.
Qed.



End Progress.

Section Ordering.

Variable args : Args.
Variable w0 : world.




(** What has been put is always an initial part of: the candidates in
    wordlist order, then one sentinel per worker. *)
Lemma run_puts_prefix (wl : wordlist_file) (tr : list obs) (s : sys) :
  run args wl w0 tr s ->
  exists n, puts tr
            = take n (map Some (candidates wl) ++ replicate (nthreads args) None).
Proof.
  intros Hrun. destruct (run_queue_inv _ _ _ _ _ Hrun) as [F P C W E D].
  destruct (coord s); simpl in P.
  - exists 0%nat. by rewrite P.
  - destruct P as (Hwl & read & Hl & ->).
    exists (length (candidates_of_lines read)).
    destruct wl as [e|lines err]; [done |]. simpl in *. subst lines.
    rewrite candidates_of_lines_app, map_app, <- app_assoc.
    rewrite take_app_length'; [done | by rewrite length_map].
  - destruct P as [_ ->]. exists (length (candidates wl)).
    rewrite take_app_length'; [done | by rewrite length_map].
  - destruct P as [Hk ->].
    exists (length (candidates wl) + (nthreads args - k))%nat.
    rewrite take_app_add' by (by rewrite length_map).
    by rewrite take_replicate, Nat.min_l by lia.
  - exists (length (candidates wl) + nthreads args)%nat.
    rewrite P, take_app_add' by (by rewrite length_map).
    by rewrite take_replicate, Nat.min_l by lia.
  - exists (length (candidates wl) + nthreads args)%nat.
    rewrite P, take_app_add' by (by rewrite length_map).
    by rewrite take_replicate, Nat.min_l by lia.
Qed.

(** The threads [main] has joined have ended, and stay so. *)
Lemma run_joined (wl : wordlist_file) (tr : list obs) (s : sys) :
  run args wl w0 tr s ->
  forall j pc, workers s !! j = Some pc ->
    match coord s with
    | CJoinThreads i => (j < i)%nat -> finished pc = true
    | CDone => finished pc = true
    | _ => True
    end.
Proof.
  induction 1 as [|tr s a s' o Hrun IH Hstep]; [done |].
  destruct a as [|k c].
  - step_cases Hstep; simpl; intros j pc Hj; try done.
    + lia.
    + specialize (IH j pc Hj). simpl in IH.
      intros Hlt. destruct (decide (j = i)) as [->|Hne]; [congruence |].
      apply IH. lia.
    + specialize (IH j pc Hj). simpl in IH. apply IH.
      apply lookup_lt_Some in Hj. apply lookup_ge_None in Heqo0. lia.
  - assert (Hframe : forall new old,
               workers s !! k = Some old -> finished old = false ->
               workers s' = <[k := new]> (workers s) -> coord s' = coord s ->
               forall j pc, workers s' !! j = Some pc ->
                 match coord s' with
                 | CJoinThreads i => (j < i)%nat -> finished pc = true
                 | CDone => finished pc = true
                 | _ => True
                 end).
    { intros new old Hk Hold -> -> j pc Hj.
      destruct (decide (k = j)) as [->|Hne].
      - specialize (IH j old Hk). destruct (coord s); try done.
        + intros Hlt. rewrite IH in Hold; done.
        + by rewrite IH in Hold.
      - rewrite list_lookup_insert_ne in Hj by done. by apply IH. }
    step_cases Hstep; (eapply Hframe; [reflexivity | done | reflexivity | done]).
Qed.


End Ordering.

Section Completion_possible.

Variable args : Args.
Variable w0 : world.
Variable c : S3Client.

Hypothesis c_honours : honours_max_keys c.

Lemma listing_of_bounded (bucket_name : string) :
  (length (default [] (listing_of (list_objects_v2 c bucket_name 10))) <= 10)%nat.
Proof.
  unfold listing_of.
  destruct (list_objects_v2 c bucket_name 10) as [response|e] eqn:Hr;
    [| simpl; lia].
  destruct (response !! "Contents") as [contents|] eqn:Hc; [| simpl; lia].
  destruct (keys_of contents) as [keys|] eqn:Hk; [| simpl; lia].
  simpl. rewrite (keys_of_length _ _ Hk).
  specialize (c_honours _ _ _ _ Hr Hc). lia.
Qed.

Lemma length_sink_writes (bucket_name : string) (fo : option (list string)) :
  (length (sink_writes bucket_name fo) <= 1 + length (default [] fo))%nat.
Proof.
  unfold sink_writes. destruct fo as [[|k ks]|]; simpl; rewrite ?length_map; lia.
Qed.

(** Every step of the main thread, and every step of a worker served by a
    client that honours [MaxKeys], lowers the weight. *)
Lemma step_lowers_weight (wl : wordlist_file) (a : action) (s s' : sys) (o : obs) :
  served_by c a ->
  length (workers s) = nthreads args ->
  step args wl a s = Some (s', o) ->
  (weight (nthreads args) wl s' < weight (nthreads args) wl s)%nat.
Proof.
  intros Ha Hlen Hstep. unfold weight.
  destruct a as [|i c']; simpl in Ha.
  - step_cases Hstep; simpl; rewrite ?Heqc; simpl;
      rewrite ?sum_list_with_app; simpl; try lia.
    apply lookup_lt_Some in Heqo0. lia.
  - subst c'.
    step_cases Hstep; simpl; rewrite ?Heql; simpl;
      try (match goal with
           | H : workers s !! i = Some ?old |- context [<[i := ?new]> (workers s)] =>
               pose proof (sum_list_with_insert pc_weight _ i old new H) as Hsum;
               cbn [pc_weight length] in Hsum
           end; lia).
    destruct (probe_and_report_returns c (list_objects args) bucket_name (shared s))
      as (w' & Hp & _).
    rewrite Hp in Heqp. injection Heqp as <- <- <-.
    pose proof (sum_list_with_insert pc_weight _ i _
                  (WLock s1 bucket_name
                     (if decide (status_of (head_bucket c bucket_name) = "FOUND")
                      then found_objects_of c (list_objects args) bucket_name
                      else None)) Heqo0) as Hsum.
    cbn [pc_weight] in Hsum.
    pose proof (length_sink_writes bucket_name
                  (if decide (status_of (head_bucket c bucket_name) = "FOUND")
                   then found_objects_of c (list_objects args) bucket_name
                   else None)) as Hlw.
    assert (Hfo : (length (default [] (if decide (status_of (head_bucket c bucket_name)
                                                   = "FOUND")
                                       then found_objects_of c (list_objects args)
                                              bucket_name
                                       else None)) <= 10)%nat).
    { case_decide; [| simpl; lia]. unfold found_objects_of.
      destruct (list_objects args); [apply listing_of_bounded | simpl; lia]. }
    lia.
Qed.

(** From every reachable state the scan can be run to its end, as long as
    no worker ends by an exception. *)
Lemma run_can_complete_nocrash (wl : wordlist_file) :
  (forall tr s, run args wl w0 tr s ->
                forall i pc, workers s !! i = Some pc -> crashed pc = false) ->
  (0 < nthreads args)%nat \/ candidates wl = [] ->
  forall k tr s,
    (weight (nthreads args) wl s < k)%nat ->
    run args wl w0 tr s ->
    exists sched tr' s',
      exec_from args wl sched tr s = Some (tr', s')
      /\ Forall (served_by c) sched
      /\ coord s' = CDone.
Proof.
  intros Hnc Hn. induction k as [|k IH]; intros tr s Hk Hrun; [lia |].
  assert (Hd : coord s = CDone \/ coord s <> CDone)
    by (destruct (coord s); auto; right; discriminate).
  destruct Hd as [Hd|Hd]; [by exists [], tr, s |].
  destruct (run_progress_nocrash args w0 c wl tr s (Hnc tr s Hrun) Hn Hrun Hd)
    as (a & s1 & o & Ha & Hstep).
  pose proof (step_lowers_weight wl a s s1 o Ha
                (run_workers_length _ _ _ _ _ Hrun) Hstep) as Hlow.
  destruct (IH (tr ++ [o])%list s1) as (sched & tr' & s' & Hex & Hall & Hc);
    [lia | by eapply run_step |].
  exists (a :: sched), tr', s'. simpl. rewrite Hstep.
  split; [exact Hex |]. split; [by constructor | exact Hc].
Qed.


End Completion_possible.

(* ===================================================================== *)
(** * The specification, claim by claim                                   *)
(* ===================================================================== *)

Lemma exec_from_run (args : Args) (wl : wordlist_file) (w0 : world)
    (sched : list action) :
  forall tr s tr' s',
    run args wl w0 tr s ->
    exec_from args wl sched tr s = Some (tr', s') ->
    run args wl w0 tr' s'.
Proof.
  induction sched as [|a sched IH]; intros tr s tr' s' Hrun Hex; simpl in Hex.
  - by injection Hex as <- <-.
  - destruct (step args wl a s) as [[s1 o]|] eqn:Hs; [| done].
    eapply IH; [| exact Hex]. by eapply run_step.
Qed.

Lemma exec_run (args : Args) (wl : wordlist_file) (w0 : world)
    (sched : list action) (tr : list obs) (s : sys) :
  exec args wl w0 sched = Some (tr, s) -> run args wl w0 tr s.
Proof. apply exec_from_run. apply run_start. Qed.

(** C1: the classifier always returns, never raises, and returns one of
    FOUND, NOT_FOUND and ERROR: FOUND when the probe succeeds or is answered
    with code 403, NOT_FOUND for code 404, ERROR for any other client error
    and for any other exception. *)
Theorem check_bucket_existence_classifies
    (s3_client : S3Client) (bucket_name : string) (w : world) :
  exists status w',
    check_bucket_existence s3_client bucket_name w = (Return status, w')
    /\ (status = "FOUND" \/ status = "NOT_FOUND" \/ status = "ERROR")
    /\ (forall u, head_bucket s3_client bucket_name = Return u -> status = "FOUND")
    /\ (forall response msg,
          head_bucket s3_client bucket_name = Raise (ClientError response msg) ->
          (error_code response = Some "403" -> status = "FOUND")
          /\ (error_code response = Some "404" -> status = "NOT_FOUND")
          /\ (error_code response <> Some "403" ->
              error_code response <> Some "404" -> status = "ERROR"))
    /\ (forall e, head_bucket s3_client bucket_name = Raise e ->
                  is_client_error e = false -> status = "ERROR").
Proof.
  destruct (check_bucket_existence_returns s3_client bucket_name w)
    as (w' & Hc & _).
  exists (status_of (head_bucket s3_client bucket_name)), w'.
  split; [exact Hc |]. split; [apply status_of_cases |].
  split; [| split]; [by intros u -> | | by intros [] -> ].
  intros response msg ->. simpl. split; [| split].
  - intros Hcode. by rewrite decide_True.
  - intros Hcode.
    rewrite decide_False by (rewrite Hcode; done). by rewrite decide_True.
  - intros H403 H404. by rewrite !decide_False.
Qed.

Lemma check_bucket_existence_classifies_witness :
  exists status w',
    check_bucket_existence Demo.service "secretbucket" Demo.fresh
    = (Return status, w')
    /\ status = "FOUND".
Proof.
  destruct (check_bucket_existence_classifies Demo.service "secretbucket" Demo.fresh)
    as (status & w' & Hc & _ & _ & Herr & _).
  exists status, w'. split; [exact Hc |].
  apply (Herr (Demo.err_response "403") "Forbidden"); reflexivity.
Defined.

(** C4: when the service honours [MaxKeys], [list_bucket_contents] returns
    at most 10 keys, whatever the bucket holds. *)
Theorem list_bucket_contents_at_most_ten
    (s3_client : S3Client) (bucket_name : string) (w : world) :
  honours_max_keys s3_client ->
  exists r w',
    list_bucket_contents s3_client bucket_name w = (Return r, w')
    /\ (length (default [] r) <= 10)%nat.
Proof.
  intros Hmax.
  destruct (list_bucket_contents_returns s3_client bucket_name w) as (w' & Hl & _).
  eexists _, w'. split; [exact Hl |].
  unfold listing_of.
  destruct (list_objects_v2 s3_client bucket_name 10) as [response|e] eqn:Hr;
    [| simpl; lia].
  destruct (response !! "Contents") as [contents|] eqn:Hc; [| simpl; lia].
  destruct (keys_of contents) as [keys|] eqn:Hk; [| simpl; lia].
  simpl. rewrite (keys_of_length _ _ Hk).
  specialize (Hmax _ _ _ _ Hr Hc). lia.
Qed.

Lemma service_honours_max_keys : honours_max_keys Demo.service.
Proof.
  intros b n response contents. simpl.
  destruct (String.eqb b "mybucket-test").
  - intros [= <-]. rewrite lookup_singleton_eq. intros [= <-].
    rewrite length_take. lia.
  - destruct (String.eqb b "emptybucket"); [| by destruct (String.eqb b _)].
    intros [= <-]. by rewrite lookup_empty.
Qed.

Lemma list_bucket_contents_at_most_ten_witness :
  (length Demo.big_bucket = 25)%nat
  /\ exists r w',
       list_bucket_contents Demo.service "mybucket-test" Demo.fresh = (Return r, w')
       /\ (length (default [] r) <= 10)%nat.
Proof.
  split; [reflexivity |].
  apply (list_bucket_contents_at_most_ten Demo.service "mybucket-test" Demo.fresh).
  exact service_honours_max_keys.
Defined.

(** C6: [list_bucket_contents] never raises.  It returns the empty list
    when the response has no contents (and says so on the console), and
    [None] when the call raises: a denied listing prints one line, any other
    failure logs one line.  A listing that returned [None] adds no object
    line to what the sink block writes. *)
Theorem list_bucket_contents_outcomes
    (s3_client : S3Client) (bucket_name : string) (w : world) :
  exists r w',
    list_bucket_contents s3_client bucket_name w = (Return r, w')
    /\ same_store w w'
    /\ (forall response,
          list_objects_v2 s3_client bucket_name 10 = Return response ->
          response !! "Contents" = None ->
          r = Some [] /\ exists msg, console w' = (console w ++ [Print msg])%list)
    /\ (forall response contents,
          list_objects_v2 s3_client bucket_name 10 = Return response ->
          response !! "Contents" = Some contents ->
          r = keys_of contents)
    /\ (forall e,
          list_objects_v2 s3_client bucket_name 10 = Raise e ->
          r = None
          /\ exists msg,
               console w'
               = (console w ++ [match e with
                                | ClientError response _ =>
                                    if decide (error_code response = Some "AccessDenied")
                                    then Print msg else Log WARNING msg
                                | _ => Log ERROR msg
                                end])%list)
    /\ (r = None ->
        forall b, sink_writes b r = ["Bucket: " +:+ b +:+ nl]).
Proof.
  destruct (list_bucket_contents_returns s3_client bucket_name w) as (w' & Hl & Hst).
  eexists _, w'. split; [exact Hl |]. split; [exact Hst |].
  assert (Hw' : w' = (list_bucket_contents s3_client bucket_name w).2)
    by (by rewrite Hl).
  split; [| split; [| split]].
  - intros response Hr Hno. split; [by rewrite Hr; simpl; rewrite Hno |].
    eexists. rewrite Hw'. by eapply list_bucket_contents_empty_console.
  - intros response contents Hr Hsome. rewrite Hr. simpl. by rewrite Hsome.
  - intros e He. split; [by rewrite He |].
    rewrite Hw'. by apply list_bucket_contents_failure_console.
  - intros -> b. reflexivity.
Qed.

Lemma list_bucket_contents_outcomes_witness :
  exists w1 w2,
    list_bucket_contents Demo.service "emptybucket" Demo.fresh = (Return (Some []), w1)
    /\ list_bucket_contents Demo.service "secretbucket" Demo.fresh = (Return None, w2)
    /\ sink_writes "secretbucket" None = ["Bucket: " +:+ "secretbucket" +:+ nl].
Proof.
  destruct (list_bucket_contents_outcomes Demo.service "emptybucket" Demo.fresh)
    as (r1 & w1 & H1 & _ & Hempty & _).
  destruct (list_bucket_contents_outcomes Demo.service "secretbucket" Demo.fresh)
    as (r2 & w2 & H2 & _ & _ & _ & Hfail & Hsink).
  destruct (Hempty ∅ eq_refl eq_refl) as [-> _].
  destruct (Hfail _ eq_refl) as [Hr2 _].
  subst r2. exists w1, w2. split; [exact H1 |]. split; [exact H2 |].
  exact (Hsink eq_refl "secretbucket").
Defined.

Section Acknowledgement.

Variable s3_client : S3Client.
Variable should_list_objects : bool.
Variable bucket_name : string.

(** When the sink block is not due or the file can be opened, one pass of
    the loop body returns and acknowledges the item exactly once. *)
Lemma worker_iteration_acknowledges (output_file : option string) (w : world) :
  (forall path,
      sink_due output_file (status_of (head_bucket s3_client bucket_name)) = Some path ->
      path ∉ unwritable w) ->
  0 < unfinished_tasks w ->
  exists w',
    worker_iteration s3_client should_list_objects output_file bucket_name w
    = (Return tt, w')
    /\ unfinished_tasks w' = unfinished_tasks w - 1.
Proof.
  intros Hsink Hpos.
  destruct (worker_iteration_spec s3_client should_list_objects bucket_name
              output_file w) as (w1 & (Hf & Hu & Hn) & ->).
  destruct (sink_due output_file _) as [path|] eqn:Hdue.
  - rewrite decide_False by (by apply Hsink).
    unfold task_done. simpl. rewrite decide_False by lia.
    eexists. split; [reflexivity |]. simpl. lia.
  - unfold task_done. rewrite decide_False by lia.
    eexists. split; [reflexivity |]. simpl. lia.
Qed.

(** When [open] refuses the output file, the pass ends with the exception
    and the item is never acknowledged. *)
Lemma worker_iteration_unwritable (output_file : option string) (w : world)
    (path : string) :
  sink_due output_file (status_of (head_bucket s3_client bucket_name)) = Some path ->
  path ∈ unwritable w ->
  exists w',
    worker_iteration s3_client should_list_objects output_file bucket_name w
    = (Raise (OtherError "PermissionError" path), w')
    /\ unfinished_tasks w' = unfinished_tasks w.
Proof.
  intros Hdue Hun.
  destruct (worker_iteration_spec s3_client should_list_objects bucket_name
              output_file w) as (w1 & (Hf & Hu & Hn) & ->).
  rewrite Hdue, decide_True by done. by exists w1.
Qed.

End Acknowledgement.

(** C5: with an output file configured that can be opened, one pass of the
    worker over a candidate appends to the file exactly one record when the
    candidate is classified FOUND (the bucket line, then one object line per
    listed key) and leaves the files untouched for any other status. *)
Theorem sink_record_once_per_found
    (s3_client : S3Client) (should_list_objects : bool)
    (path bucket_name status : string) (w : world) :
  truthy_str path = true ->
  path ∉ unwritable w ->
  (check_bucket_existence s3_client bucket_name w).1 = Return status ->
  let listed :=
    if should_list_objects
    then (list_bucket_contents s3_client bucket_name w).1
    else Return None in
  let keys := match listed with Return (Some ks) => ks | _ => [] end in
  let w' :=
    (worker_iteration s3_client should_list_objects (Some path) bucket_name w).2 in
  (status = "FOUND" ->
   files w'
   = <[path := content w path
                 +:+ "Bucket: " +:+ bucket_name +:+ nl
                 +:+ text (map (fun obj_key => "  - Object: " +:+ obj_key +:+ nl) keys)]>
       (files w))
  /\ (status <> "FOUND" -> files w' = files w).
Proof.
  intros Hpath Hw Hstatus listed keys w'.
  destruct (check_bucket_existence_returns s3_client bucket_name w)
    as (w0 & Hc & _).
  rewrite Hc in Hstatus. simpl in Hstatus. injection Hstatus as <-.
  assert (Hkeys : keys
                  = default [] (found_objects_of s3_client should_list_objects
                                  bucket_name)).
  { unfold keys, listed, found_objects_of. destruct should_list_objects; [| done].
    destruct (list_bucket_contents_returns s3_client bucket_name w) as (w2 & -> & _).
    simpl. by destruct (listing_of _). }
  destruct (worker_iteration_spec s3_client should_list_objects bucket_name
              (Some path) w) as (w1 & (Hf & Hu & Hn) & Hit).
  unfold w'. rewrite Hit. unfold sink_due. rewrite Hpath.
  split.
  - intros Hfound. rewrite decide_True by done. rewrite decide_False by done.
    unfold task_done. case_decide; simpl; unfold content;
      rewrite Hf, Hkeys; by unfold sink_record, object_line.
  - intros Hother. rewrite decide_False by done.
    unfold task_done. by case_decide.
Qed.

Lemma sink_record_once_per_found_witness :
  files (worker_iteration Demo.service false (Some "out.txt") "secretbucket"
           Demo.one_pending).2 !! "out.txt"
  = Some ("Bucket: secretbucket" +:+ nl)
  /\ files (worker_iteration Demo.service false (Some "out.txt") "nonexistent-xyz"
              Demo.one_pending).2 !! "out.txt"
     = None.
Proof.
  split.
  - destruct (sink_record_once_per_found Demo.service false "out.txt"
                "secretbucket" "FOUND" Demo.one_pending) as [Hfound _];
      [reflexivity | apply not_elem_of_empty | reflexivity |].
    rewrite (Hfound eq_refl). reflexivity.
  - destruct (sink_record_once_per_found Demo.service false "out.txt"
                "nonexistent-xyz" "NOT_FOUND" Demo.one_pending) as [_ Hother];
      [reflexivity | apply not_elem_of_empty | reflexivity |].
    rewrite Hother by done. reflexivity.
Defined.



Section Examination.

Variable args : Args.
Variable w0 : world.



End Examination.



(** C10 fails on the code: when [open] refuses the output file, the pass
    over a found bucket ends with the exception before [task_done]; the
    worker thread ends, the item stays unfinished and the join barrier of
    [main] never returns. *)
Theorem unwritable_sink_skips_task_done :
  (exists e w',
      worker_iteration Demo.service false (Some "/srv/ro/out.txt") "mybucket-test"
        Demo.readonly_out_pending
      = (Raise e, w')
      /\ unfinished_tasks w' = 1)
  /\ run Demo.ro_args Demo.ro_wl Demo.readonly_out Demo.ro_trace Demo.ro_state
  /\ gets 0 Demo.ro_trace = [Some "mybucket-test"]
  /\ acks Demo.ro_trace = 0%nat
  /\ workers Demo.ro_state
     = [WCrashed (OtherError "PermissionError" "/srv/ro/out.txt")]
  /\ coord Demo.ro_state = CJoin
  /\ unfinished_tasks (shared Demo.ro_state) = 1
  /\ stuck Demo.ro_args Demo.ro_wl Demo.ro_state.
Proof.
  split.
  { destruct (worker_iteration_unwritable Demo.service false "mybucket-test"
                (Some "/srv/ro/out.txt") Demo.readonly_out_pending
                "/srv/ro/out.txt") as (w' & Hw & Hn).
    - reflexivity.
    - simpl. set_solver.
    - by eexists _, w'. }
  split; [apply exec_run with Demo.ro_sched; vm_compute; reflexivity |].
  repeat (split; [reflexivity |]).
  intros [|[|i] c]; reflexivity.
Qed.

Section Completion.

Variable args : Args.
Variable w0 : world.


End Completion.



Lemma text_concat (ls : list (list string)) :
  text (concat ls) = text (map text ls).
Proof.
  induction ls as [|l ls IH]; [done |].
  change (concat (l :: ls)) with (l ++ concat ls)%list.
  rewrite text_app, IH. done.
Qed.

(** C3: at most one worker is inside the [with lock] block, and it holds
    the lock; the output file holds its initial content followed by the
    chunks written so far; these chunks, completed by what the worker
    inside the block has still to write, are the whole records of the
    blocks entered so far, one after the other.  So the written chunks are
    an initial part of a sequence of whole records, and whenever the lock
    is free the file holds whole records only: no line of one record lies
    inside another. *)
Theorem sink_records_are_contiguous
    (args : Args) (wl : wordlist_file) (w0 : world) (tr : list obs) (s : sys) :
  run args wl w0 tr s ->
  (forall i j pci pcj,
      workers s !! i = Some pci -> workers s !! j = Some pcj ->
      in_cs pci = true -> in_cs pcj = true -> i = j)
  /\ (forall i pc, workers s !! i = Some pc -> in_cs pc = true -> lock s = Some i)
  /\ (forall path,
        content (shared s) path
        = content w0 path
            +:+ (if decide (sink_path args path) then text (written tr) else ""))
  /\ (written tr ++ pending_of s)%list
     = concat (map (fun b => sink_writes b.1 b.2) (blocks tr))
  /\ written tr `prefix_of` concat (map (fun b => sink_writes b.1 b.2) (blocks tr))
  /\ (lock s = None ->
      forall path, sink_path args path ->
        content (shared s) path
        = content w0 path
            +:+ text (map (fun b => sink_record b.1 (default [] b.2)) (blocks tr))).
Proof.
  intros Hrun. destruct (run_lock_inv _ _ _ _ _ Hrun) as [H1 H2 H3 H4 H5 H6].
  split.
  { intros i j pci pcj Hi Hj Hci Hcj.
    pose proof (H2 _ _ Hi Hci). pose proof (H2 _ _ Hj Hcj). congruence. }
  split; [exact H2 |]. split; [exact H5 |]. split; [exact H4 |].
  split; [by exists (pending_of s) |].
  intros Hl path Hpath. rewrite H5, decide_True by done. f_equal.
  unfold pending_of in H4. rewrite Hl, app_nil_r in H4.
  rewrite H4, text_concat, map_map. f_equal.
  apply map_ext. intros [b fo]. apply text_sink_writes.
Qed.

Lemma sink_records_are_contiguous_witness :
  run Demo.pair_args Demo.pair_wl Demo.fresh Demo.pair_trace Demo.pair_state
  /\ lock Demo.pair_state = Some 1%nat
  /\ content (shared Demo.pair_state) "out.txt"
     = content Demo.fresh "out.txt" +:+ text (written Demo.pair_trace).
Proof.
  assert (Hrun : run Demo.pair_args Demo.pair_wl Demo.fresh
                   Demo.pair_trace Demo.pair_state)
    by (apply exec_run with Demo.pair_sched; vm_compute; reflexivity).
  split; [exact Hrun |].
  destruct (sink_records_are_contiguous Demo.pair_args Demo.pair_wl Demo.fresh
              Demo.pair_trace Demo.pair_state Hrun)
    as (_ & Hlock & Hfile & _).
  split.
  - apply (Hlock 1%nat (WWrite "out.txt" [])); reflexivity.
  - exact (Hfile "out.txt").
Defined.

Section NoWorkers.

Variable args : Args.
Variable w0 : world.

Hypothesis no_threads : threads args <= 0.

Lemma nthreads_zero : nthreads args = 0%nat.
Proof. unfold nthreads. lia. Qed.

(** Without workers nothing is ever dequeued or acknowledged. *)
Lemma run_no_workers (wl : wordlist_file) (tr : list obs) (s : sys) :
  run args wl w0 tr s -> workers s = [] /\ got_items tr = [] /\ acks tr = 0%nat.
Proof.
  induction 1 as [|tr s a s' o Hrun (Hw & Hg & Ha) Hstep].
  - simpl. by rewrite nthreads_zero.
  - destruct a as [|i c].
    + step_cases Hstep; simpl;
        rewrite got_items_snoc, acks_snoc; simpl;
        rewrite ?app_nil_r, ?Nat.add_0_r; done.
    + unfold step, worker_step in Hstep. by rewrite Hw in Hstep.
Qed.

(** The main thread, left alone, reads the whole wordlist. *)
Lemma feed_all (wl : wordlist_file) (rest : list string) :
  forall tr s,
    run args wl w0 tr s -> coord s = CFeed rest ->
    exists tr' s',
      run args wl w0 (tr ++ tr') s' /\ coord s' = CFeed []
      /\ queue s' = (queue s ++ map Some (candidates_of_lines rest))%list.
Proof.
  induction rest as [|line rest IH]; intros tr s Hrun Hc.
  - exists [], s. rewrite !app_nil_r. done.
  - destruct (truthy_str (strip line)) eqn:Ht.
    + assert (Hstep : step args wl ACoord s
                      = Some (with_coord (CFeed rest) (q_put (Some (strip line)) s),
                              Put (Some (strip line)))).
      { simpl. unfold coord_step. by rewrite Hc, Ht. }
      destruct (IH _ _ (run_step _ _ _ _ _ _ _ _ Hrun Hstep) eq_refl)
        as (tr' & s' & Hrun' & Hc' & Hq').
      exists (Put (Some (strip line)) :: tr'), s'.
      split; [by rewrite <- app_assoc in Hrun' |]. split; [done |].
      rewrite Hq', candidates_of_lines_cons, Ht. simpl.
      by rewrite <- app_assoc.
    + assert (Hstep : step args wl ACoord s
                      = Some (with_coord (CFeed rest) s, SkippedLine line)).
      { simpl. unfold coord_step. by rewrite Hc, Ht. }
      destruct (IH _ _ (run_step _ _ _ _ _ _ _ _ Hrun Hstep) eq_refl)
        as (tr' & s' & Hrun' & Hc' & Hq').
      exists (SkippedLine line :: tr'), s'.
      split; [by rewrite <- app_assoc in Hrun' |]. split; [done |].
      by rewrite Hq', candidates_of_lines_cons, Ht.
Qed.

End NoWorkers.

(** C8, as stated, fails: with [--threads 0] the wordlist is opened and
    both candidates of the sample wordlist are put in the queue. *)
Lemma zero_threads_not_rejected :
  ~ (forall args wl w0, threads args = 0 -> rejected_at_startup args wl w0).
Proof.
  intros H.
  destruct (H Demo.idle_args Demo.scan_wl Demo.fresh eq_refl
              Demo.idle_trace Demo.idle_state) as [_ Hp].
  - apply exec_run with (Demo.main_moves 6). vm_compute. reflexivity.
  - discriminate Hp.
Qed.

(** C8 amended: a thread count of zero (or below) is not validated.  [main]
    starts in the same state as any scan, with no worker; it can read the
    whole wordlist and put every candidate; and when the wordlist holds a
    candidate the join barrier never returns: nothing is ever acknowledged,
    no sentinel is put, [main] never reaches its [finally] block, and once
    the wordlist is read no thread can move. *)
Theorem zero_threads_starve_the_join
    (args : Args) (lines : list string) (w0 : world) :
  threads args <= 0 ->
  let wl := Readable lines None in
  workers (main_start args w0) = []
  /\ coord (main_start args w0) = COpen
  /\ (exists tr s,
        run args wl w0 tr s
        /\ OpenedWordlist ∈ tr
        /\ coord s = CJoin
        /\ puts tr = map Some (candidates_of_lines lines)
        /\ queue s = map Some (candidates_of_lines lines)
        /\ (candidates_of_lines lines <> [] -> stuck args wl s))
  /\ (candidates_of_lines lines <> [] ->
      forall tr s,
        run args wl w0 tr s ->
        acks tr = 0%nat
        /\ sentinel_phase (coord s) = false
        /\ None ∉ puts tr).
Proof.
  intros Hn wl.
  assert (Hz : nthreads args = 0%nat) by (by apply nthreads_zero).
  assert (Hnever : candidates_of_lines lines <> [] ->
                   forall tr s, run args wl w0 tr s ->
                                acks tr = 0%nat /\ sentinel_phase (coord s) = false).
  { intros Hne tr s Hrun.
    destruct (run_no_workers args w0 Hn _ _ _ Hrun) as (_ & _ & Ha).
    split; [exact Ha |].
    destruct (run_queue_inv _ _ _ _ _ Hrun) as [F P C W E D].
    destruct (sentinel_phase (coord s)) eqn:Hs; [| done].
    destruct (D I eq_refl) as [Hk _]. rewrite Ha in Hk. simpl in Hk.
    destruct (candidates_of_lines lines); done. }
  split; [simpl; by rewrite Hz |]. split; [done |]. split.
  - assert (Hopen : step args wl ACoord (main_start args w0)
                    = Some (with_coord (CFeed lines) (main_start args w0),
                            OpenedWordlist)) by done.
    pose proof (run_step _ _ _ _ _ _ _ _ (run_start args wl w0) Hopen) as Hrun1.
    destruct (feed_all args w0 wl lines _ _ Hrun1 eq_refl)
      as (tr' & s' & Hrun' & Hc' & Hq').
    assert (Heof : step args wl ACoord s' = Some (with_coord CJoin s', EndOfWordlist)).
    { simpl. unfold coord_step. by rewrite Hc'. }
    pose proof (run_step _ _ _ _ _ _ _ _ Hrun' Heof) as Hrun.
    assert (Hin : OpenedWordlist
                  ∈ ((([] ++ [OpenedWordlist]) ++ tr') ++ [EndOfWordlist])%list)
      by (simpl; constructor).
    remember ((([] ++ [OpenedWordlist]) ++ tr') ++ [EndOfWordlist])%list as trf.
    remember (with_coord CJoin s') as sf.
    exists trf, sf. split; [exact Hrun |].
    destruct (run_queue_inv _ _ _ _ _ Hrun) as [F P C W E D].
    destruct (run_no_workers args w0 Hn _ _ _ Hrun) as (Hw & Hg & Ha).
    assert (Hcf : coord sf = CJoin) by (by subst sf).
    rewrite Hcf in P. simpl in P. destruct P as [_ HP].
    split; [exact Hin |]. split; [exact Hcf |]. split; [exact HP |].
    split; [subst sf; simpl; by rewrite Hq' |].
    intros Hne [|i c].
    + simpl. unfold coord_step. rewrite Hcf, decide_False; [done |].
      rewrite C, HP, length_map, Ha.
      destruct (candidates_of_lines lines); [done | simpl; lia].
    + simpl. unfold worker_step. by rewrite Hw.
  - intros Hne tr s Hrun. destruct (Hnever Hne tr s Hrun) as [Ha Hs].
    split; [exact Ha |]. split; [exact Hs |].
    destruct (run_queue_inv _ _ _ _ _ Hrun) as [F P C W E D].
    intros Hin.
    assert (Habs : forall cs : list string, None ∉ map Some cs).
    { intros cs Hc. by apply list_elem_of_fmap in Hc as (c & Hc & _). }
    destruct (coord s); simpl in *; try done.
    + rewrite P in Hin. by apply not_elem_of_nil in Hin.
    + destruct P as (_ & read & _ & HP). rewrite HP in Hin. by eapply Habs.
    + destruct P as (_ & HP). rewrite HP in Hin. by eapply Habs.
Qed.

Lemma zero_threads_starve_the_join_witness :
  threads Demo.idle_args <= 0
  /\ candidates_of_lines Demo.scenario_lines <> []
  /\ forall tr s,
       run Demo.idle_args (Readable Demo.scenario_lines None) Demo.fresh tr s ->
       acks tr = 0%nat /\ sentinel_phase (coord s) = false /\ (None ∉ puts tr).
Proof.
  split; [simpl; lia |]. split; [done |].
  destruct (zero_threads_starve_the_join Demo.idle_args Demo.scenario_lines
              Demo.fresh) as (_ & _ & _ & Hnever); [simpl; lia |].
  apply Hnever. done.
Defined.

(* ===================================================================== *)
(** * The loop body and the steps of a worker agree                       *)
(* ===================================================================== *)

Section SoloPass.

Variable args : Args.
Variable wl : wordlist_file.
Variable i : nat.
Variable c : S3Client.

Lemma exec_from_app (l1 l2 : list action) (tr : list obs) (s : sys) :
  exec_from args wl (l1 ++ l2) tr s
  = match exec_from args wl l1 tr s with
    | Some (tr', s') => exec_from args wl l2 tr' s'
    | None => None
    end.
Proof.
  revert tr s. induction l1 as [|a l1 IH]; intros tr s; simpl; [done |].
  destruct (step args wl a s) as [[s1 o]|]; [apply IH | done].
Qed.

(** A worker inside the sink block, left to run, writes its pending chunks
    as [write_all] does, closes the file and releases the lock. *)
Lemma solo_writes (path : string) (chunks : list string) :
  forall tr s,
    workers s !! i = Some (WWrite path chunks) ->
    exists tr' s',
      exec_from args wl (replicate (S (length chunks)) (AWorker i c)) tr s
      = Some (tr', s')
      /\ shared s' = (write_all path chunks (shared s)).2
      /\ workers s' = <[i := WTaskDone]> (workers s)
      /\ lock s' = None /\ queue s' = queue s /\ coord s' = coord s.
Proof.
  induction chunks as [|x rest IH]; intros tr s Hi.
  - simpl. unfold worker_step. rewrite Hi. by eexists _, _.
  - assert (Hlt : (i < length (workers s))%nat) by (by eapply lookup_lt_Some).
    change (replicate (S (length (x :: rest))) (AWorker i c))
      with (AWorker i c :: replicate (S (length rest)) (AWorker i c)).
    simpl. unfold worker_step at 1. rewrite Hi. simpl.
    edestruct (IH (tr ++ [Wrote i x])%list
                 (with_worker i (WWrite path rest)
                    (with_shared (write path x (shared s)).2 s)))
      as (tr' & s' & Hex & Hsh & Hw & Hl & Hq & Hc).
    { simpl. by rewrite list_lookup_insert_eq. }
    exists tr', s'. split; [exact Hex |].
    split; [by rewrite Hsh |].
    split; [by rewrite Hw; simpl; rewrite list_insert_insert_eq |]. done.
Qed.

(** The loop body with its sequencing spelled out. *)
Lemma worker_iteration_unfold (bucket_name : string) (w : world) :
  worker_iteration c (list_objects args) (output args) bucket_name w
  = match probe_and_report c (list_objects args) bucket_name w with
    | (Return (st, fo), w1) =>
        match sink_due (output args) st with
        | Some path =>
            match open_append path w1 with
            | (Return _, w2) =>
                match write_all path (sink_writes bucket_name fo) w2 with
                | (Return _, w3) => task_done w3
                | (Raise e, w3) => (Raise e, w3)
                end
            | (Raise e, w2) => (Raise e, w2)
            end
        | None => task_done w1
        end
    | (Raise e, w1) => (Raise e, w1)
    end.
Proof.
  rewrite worker_iteration_factors. unfold bind at 1.
  destruct (probe_and_report c (list_objects args) bucket_name w)
    as [[[st fo]|e] w1]; [| done].
  cbn [fst snd]. destruct (sink_due (output args) st) as [path|]; [| done].
  unfold bind, sink_block, bind.
  destruct (open_append path w1) as [[u|e] w2]; [| done].
  by destruct (write_all path (sink_writes bucket_name fo) w2) as [[u'|e] w3].
Qed.

(** A worker that holds a candidate and finds the lock free, left to run,
    goes through the loop body: the shared world ends as
    [worker_iteration] leaves it, and the worker is back at [q.get()] when
    the body returns, or ended by the exception the body raises. *)
Lemma solo_pass (bucket_name : string) (tr : list obs) (s : sys) :
  workers s !! i = Some (WExamine bucket_name) ->
  lock s = None ->
  let r := worker_iteration c (list_objects args) (output args) bucket_name (shared s) in
  exists n tr' s',
    exec_from args wl (replicate n (AWorker i c)) tr s = Some (tr', s')
    /\ shared s' = r.2
    /\ workers s' = <[i := match r.1 with
                           | Return _ => WGet
                           | Raise e => WCrashed e
                           end]> (workers s)
    /\ lock s' = None /\ queue s' = queue s /\ coord s' = coord s.
Proof.
  intros Hi Hl r.
  assert (Hlt : (i < length (workers s))%nat) by (by eapply lookup_lt_Some).
  unfold r. rewrite worker_iteration_unfold.
  assert (Hdone : forall tr1 s1,
             workers s1 !! i = Some WTaskDone ->
             exists tr' s',
               exec_from args wl [AWorker i c] tr1 s1 = Some (tr', s')
               /\ shared s' = (task_done (shared s1)).2
               /\ workers s' = <[i := match (task_done (shared s1)).1 with
                                      | Return _ => WGet
                                      | Raise e => WCrashed e
                                      end]> (workers s1)
               /\ lock s' = lock s1 /\ queue s' = queue s1 /\ coord s' = coord s1).
  { intros tr1 s1 H1. simpl. unfold worker_step. rewrite H1.
    destruct (task_done (shared s1)) as [[u|e] w']; by eexists _, _. }
  destruct (probe_and_report c (list_objects args) bucket_name (shared s))
    as [[[st fo]|e] w1] eqn:Hp.
  2:{ exists 1%nat. simpl. unfold worker_step. rewrite Hi, Hp.
      by eexists _, _. }
  destruct (sink_due (output args) st) as [path|] eqn:Hdue.
  - (* the sink block is due *)
    destruct (open_append path w1) as [[u|e] w2] eqn:Hopen.
    + set (s3 := with_worker i (WWrite path (sink_writes bucket_name fo))
                   (with_shared w2
                      (with_worker i (WOpen path bucket_name fo)
                         (with_lock (Some i)
                            (with_worker i (WLock path bucket_name fo)
                               (with_shared w1 s)))))).
      destruct (solo_writes path (sink_writes bucket_name fo)
                  (((tr ++ [Examined i bucket_name st]) ++ [Locked i])
                     ++ [Opened i bucket_name fo])%list s3)
        as (tr4 & s4 & Hex4 & Hsh4 & Hw4 & Hl4 & Hq4 & Hc4).
      { simpl. by rewrite list_lookup_insert_eq by (by rewrite !length_insert). }
      destruct (Hdone tr4 s4) as (tr5 & s5 & Hex5 & Hsh5 & Hw5 & Hl5 & Hq5 & Hc5).
      { rewrite Hw4. simpl.
        by rewrite list_lookup_insert_eq by (by rewrite !length_insert). }
      exists (3 + (S (length (sink_writes bucket_name fo)) + 1))%nat, tr5, s5.
      split.
      { rewrite !replicate_add, exec_from_app.
        change (exec_from args wl (replicate 3 (AWorker i c)) tr s)
          with (exec_from args wl [AWorker i c; AWorker i c; AWorker i c] tr s).
        cbn [exec_from step]. unfold worker_step at 1. rewrite Hi, Hp, Hdue.
        unfold worker_step at 1. cbn [workers with_worker with_shared lock].
        rewrite list_lookup_insert_eq by done. rewrite Hl.
        unfold worker_step at 1.
        cbn [workers with_worker with_shared with_lock shared].
        rewrite list_lookup_insert_eq by (by rewrite length_insert).
        rewrite Hopen, exec_from_app. fold s3. rewrite Hex4. exact Hex5. }
      change (shared s3) with w2 in Hsh4.
      destruct (write_all path (sink_writes bucket_name fo) w2) as [[u'|e] w3] eqn:Hwa.
      * rewrite Hsh5, Hw5, Hl5, Hq5, Hc5, Hl4, Hq4, Hc4, Hw4, Hsh4. simpl.
        rewrite !list_insert_insert_eq. done.
      * exfalso. unfold open_append in Hopen. case_decide; [done |].
        inversion Hopen; subst w2.
        erewrite write_all_spec in Hwa; [done |].
        simpl. apply lookup_insert_eq.
    + exists 3%nat.
      change (replicate 3 (AWorker i c))
        with [AWorker i c; AWorker i c; AWorker i c].
      cbn [exec_from step]. unfold worker_step at 1. rewrite Hi, Hp, Hdue.
      unfold worker_step at 1. cbn [workers with_worker with_shared lock].
      rewrite list_lookup_insert_eq by done. rewrite Hl.
      unfold worker_step at 1.
      cbn [workers with_worker with_shared with_lock shared].
      rewrite list_lookup_insert_eq by (by rewrite length_insert).
      rewrite Hopen.
      eexists _, _. split; [reflexivity |]. simpl.
      by rewrite !list_insert_insert_eq.
  - (* no sink block *)
    set (s1 := with_worker i WTaskDone (with_shared w1 s)).
    destruct (Hdone (tr ++ [Examined i bucket_name st])%list s1)
      as (tr2 & s2 & Hex2 & Hsh2 & Hw2 & Hl2 & Hq2 & Hc2).
    { simpl. by rewrite list_lookup_insert_eq. }
    exists 2%nat, tr2, s2. split.
    { change (replicate 2 (AWorker i c)) with ([AWorker i c] ++ [AWorker i c])%list.
      rewrite exec_from_app. cbn [exec_from step].
      unfold worker_step at 1. rewrite Hi, Hp, Hdue. exact Hex2. }
    rewrite Hsh2, Hw2, Hl2, Hq2, Hc2. simpl.
    rewrite list_insert_insert_eq. done.
Qed.

End SoloPass.

(* ===================================================================== *)
(** * Further properties of the code                                      *)
(* ===================================================================== *)

(** ** What the classifier and the listing leave on the console *)

(** The world after [check_bucket_existence]: untouched unless the result
    is ERROR, in which case one line was logged. *)
Lemma check_bucket_existence_world
    (s3_client : S3Client) (bucket_name : string) (w : world) :
  (check_bucket_existence s3_client bucket_name w).2
  = match head_bucket s3_client bucket_name with
    | Return _ => w
    | Raise (ClientError response msg) =>
        if decide (error_code response = Some "403") then w
        else if decide (error_code response = Some "404") then w
        else emit (Log WARNING
                     ("An unexpected client error occurred for bucket '"
                        +:+ bucket_name +:+ "': " +:+ msg)) w
    | Raise e =>
        emit (Log ERROR ("A critical error occurred for bucket '"
                           +:+ bucket_name +:+ "': " +:+ str_exn e)) w
    end.
Proof.
  unfold check_bucket_existence. run_monad.
  destruct (head_bucket s3_client bucket_name) as [[]|[response msg|msg|cls msg]];
    simpl; try done.
  by repeat case_decide.
Qed.

(** X1: the classifier is silent for FOUND and NOT_FOUND; a result ERROR
    comes with exactly one log line, a warning when the service answered
    with a client error and an error otherwise.  Nothing but the console
    changes. *)
Theorem check_bucket_existence_logs_errors_only
    (s3_client : S3Client) (bucket_name : string) (w : world) :
  let status := status_of (head_bucket s3_client bucket_name) in
  let w' := (check_bucket_existence s3_client bucket_name w).2 in
  (status <> "ERROR" -> w' = w)
  /\ (status = "ERROR" ->
      exists msg,
        w' = emit (Log (match head_bucket s3_client bucket_name with
                        | Raise (ClientError _ _) => WARNING
                        | _ => ERROR
                        end) msg) w).
Proof.
  intros status w'. unfold w', status. rewrite check_bucket_existence_world.
  unfold status_of.
  destruct (head_bucket s3_client bucket_name) as [[]|[response msg|msg|cls msg]];
    simpl.
  - by split.
  - repeat case_decide; split; try done; intros _; by eexists.
  - split; [done |]. intros _. by eexists.
  - split; [done |]. intros _. by eexists.
Qed.

Lemma check_bucket_existence_logs_errors_only_witness :
  (check_bucket_existence Demo.service "nonexistent-xyz" Demo.fresh).2 = Demo.fresh
  /\ exists msg,
       (check_bucket_existence Demo.service "flaky" Demo.fresh).2
       = emit (Log WARNING msg) Demo.fresh.
Proof.
  destruct (check_bucket_existence_logs_errors_only Demo.service "nonexistent-xyz"
              Demo.fresh) as [Hquiet _].
  destruct (check_bucket_existence_logs_errors_only Demo.service "flaky"
              Demo.fresh) as [_ Hloud].
  split; [by apply Hquiet | by apply Hloud].
Defined.

(** The loop stops at the first entry without a key, after printing the
    keys before it. *)
Lemma collect_keys_failure (contents : list (gmap string string)) :
  forall (acc : list string) (w : world),
    keys_of contents = None ->
    exists n printed obj,
      keys_of (take n contents) = Some printed
      /\ contents !! n = Some obj /\ obj !! "Key" = None
      /\ collect_keys contents acc w
         = (Raise (OtherError "KeyError" "Key"),
            mkWorld (console w ++ map (fun k => Print ("        - " +:+ k)) printed)
                    (files w) (unwritable w) (unfinished_tasks w)).
Proof.
  unfold keys_of.
  induction contents as [|obj rest IH]; intros acc w Hk; [done |].
  simpl in Hk. destruct (obj !! "Key") as [key|] eqn:Hkey; simpl in Hk.
  - destruct (mapM (fun obj0 => obj0 !! "Key") rest) as [keys|] eqn:Hrest;
      [done |].
    destruct (IH (acc ++ [key])%list (emit (Print ("        - " +:+ key)) w) eq_refl)
      as (n & printed & bad & Hn & Hbad & Hnokey & Hc).
    exists (S n), (key :: printed), bad. simpl. rewrite Hkey. simpl.
    rewrite Hn. simpl. split; [done |]. split; [done |]. split; [done |].
    run_monad. rewrite Hkey. simpl. rewrite Hc. simpl.
    by rewrite <- app_assoc.
  - exists 0%nat, [], obj. simpl. split; [done |]. split; [done |].
    split; [done |]. run_monad. rewrite Hkey. simpl.
    rewrite app_nil_r. by destruct w.
Qed.

(** X2: when the response has contents, [list_bucket_contents] prints a
    heading and then one line per key, in the order of the response, and
    returns these keys in the same order.  When an entry has no key it
    returns [None]: the keys before that entry were already printed, and
    the failure is logged as an error. *)
Theorem list_bucket_contents_prints_each_key
    (s3_client : S3Client) (bucket_name : string) (w : world)
    (response : gmap string (list (gmap string string)))
    (contents : list (gmap string string)) :
  list_objects_v2 s3_client bucket_name 10 = Return response ->
  response !! "Contents" = Some contents ->
  let r := (list_bucket_contents s3_client bucket_name w).1 in
  let w' := (list_bucket_contents s3_client bucket_name w).2 in
  let heading :=
    Print ("    " +:+ colors.YELLOW +:+ "└── Objects found:" +:+ colors.ENDC) in
  let key_line := fun k => Print ("        - " +:+ k) in
  (forall keys,
      keys_of contents = Some keys ->
      r = Return (Some keys)
      /\ console w' = (console w ++ heading :: map key_line keys)%list)
  /\ (keys_of contents = None ->
      r = Return None
      /\ exists n printed obj msg,
           keys_of (take n contents) = Some printed
           /\ contents !! n = Some obj /\ obj !! "Key" = None
           /\ console w'
              = (console w ++ heading :: map key_line printed
                   ++ [Log ERROR msg])%list).
Proof.
  intros Hr Hc r w' heading key_line. unfold r, w', list_bucket_contents.
  run_monad. rewrite Hr. simpl. rewrite Hc. simpl. split.
  - intros keys Hk.
    pose proof (collect_keys_spec contents [] (emit heading w)) as H.
    rewrite Hk in H. destruct H as (w1 & Hcol & _ & Hcon).
    fold heading. rewrite Hcol. simpl. split; [done |].
    rewrite Hcon. simpl. by rewrite <- app_assoc.
  - intros Hk.
    destruct (collect_keys_failure contents [] (emit heading w) Hk)
      as (n & printed & obj & Hn & Hobj & Hnokey & Hcol).
    fold heading. rewrite Hcol. simpl. split; [done |].
    exists n, printed, obj. eexists. split; [done |]. split; [done |].
    split; [done |]. by rewrite <- !app_assoc.
Qed.

Lemma list_bucket_contents_prints_each_key_witness :
  (list_bucket_contents Demo.broken_lister "anybucket" Demo.fresh).1 = Return None
  /\ exists n printed obj msg,
       keys_of (take n [Demo.obj_with_key "a"; ∅; Demo.obj_with_key "c"])
       = Some printed
       /\ [Demo.obj_with_key "a"; ∅; Demo.obj_with_key "c"] !! n = Some obj
       /\ obj !! "Key" = None
       /\ console (list_bucket_contents Demo.broken_lister "anybucket" Demo.fresh).2
          = (console Demo.fresh
               ++ Print ("    " +:+ colors.YELLOW +:+ "└── Objects found:"
                           +:+ colors.ENDC)
               :: map (fun k => Print ("        - " +:+ k)) printed
               ++ [Log ERROR msg])%list.
Proof.
  destruct (list_bucket_contents_prints_each_key Demo.broken_lister "anybucket"
              Demo.fresh
              {[ "Contents" := [Demo.obj_with_key "a"; ∅; Demo.obj_with_key "c"] ]}
              [Demo.obj_with_key "a"; ∅; Demo.obj_with_key "c"]
              eq_refl eq_refl) as [_ Hbad].
  apply Hbad. reflexivity.
Defined.

(** ** What one pass of the worker reports *)

Lemma list_bucket_contents_console_grows
    (s3_client : S3Client) (bucket_name : string) (w : world) :
  exists evs,
    console (list_bucket_contents s3_client bucket_name w).2
    = (console w ++ evs)%list.
Proof.
  unfold list_bucket_contents. run_monad.
  destruct (list_objects_v2 s3_client bucket_name 10)
    as [response|[resp msg|msg|cls msg]]; simpl.
  - destruct (response !! "Contents") as [contents|]; simpl; [| by eexists].
    pose proof (collect_keys_spec contents []
                  (emit (Print ("    " +:+ colors.YELLOW +:+ "└── Objects found:"
                                  +:+ colors.ENDC)) w)) as H.
    destruct (keys_of contents) as [keys|].
    + destruct H as (w' & -> & _ & Hcon). simpl. rewrite Hcon. simpl.
      rewrite <- app_assoc. by eexists.
    + destruct H as (e & w' & evs & -> & He & _ & Hcon).
      destruct e as [r m|m|cls m]; [done | |]; simpl; rewrite Hcon; simpl;
        rewrite <- !app_assoc; by eexists.
  - case_decide; simpl; by eexists.
  - by eexists.
  - by eexists.
Qed.

Lemma write_all_console (path : string) (chunks : list string) :
  forall w, console (write_all path chunks w).2 = console w.
Proof.
  induction chunks as [|x rest IH]; intros w; [done |].
  simpl. run_monad. by rewrite IH.
Qed.

Lemma sink_block_console (path bucket_name : string)
    (found_objects : option (list string)) (w : world) :
  console (sink_block path bucket_name found_objects w).2 = console w.
Proof.
  unfold sink_block, bind, open_append. case_decide; [done |].
  by rewrite write_all_console.
Qed.

Lemma task_done_console (w : world) : console (task_done w).2 = console w.
Proof. unfold task_done. by case_decide. Qed.

(** X3: a pass over a candidate classified NOT_FOUND is silent: it changes
    nothing but the counter of the queue.  A pass over a candidate
    classified ERROR prints the error line after the log line of the
    classifier and touches no file.  A pass over a candidate classified
    FOUND prints the found line before anything else. *)
Theorem worker_iteration_reports
    (s3_client : S3Client) (should_list_objects : bool)
    (output_file : option string) (bucket_name : string) (w : world) :
  0 < unfinished_tasks w ->
  let status := status_of (head_bucket s3_client bucket_name) in
  let after := worker_iteration s3_client should_list_objects output_file
                 bucket_name w in
  (status = "NOT_FOUND" ->
   after = (Return tt, set_unfinished (unfinished_tasks w - 1) w))
  /\ (status = "ERROR" ->
      after
      = (Return tt,
         set_unfinished (unfinished_tasks w - 1)
           (emit (Print (error_line bucket_name))
              (check_bucket_existence s3_client bucket_name w).2)))
  /\ (status = "FOUND" ->
      exists evs,
        console after.2 = (console w ++ Print (found_line bucket_name) :: evs)%list).
Proof.
  intros Hpos status after. subst status after.
  destruct (check_bucket_existence_returns s3_client bucket_name w)
    as (w0 & Hc & Hf & Hu & Hn).
  pose proof (check_bucket_existence_world s3_client bucket_name w) as Hw.
  unfold worker_iteration, bind. rewrite Hc in *. cbn [snd] in *.
  assert (Hquiet : status_of (head_bucket s3_client bucket_name) <> "ERROR" ->
                   w0 = w).
  { intros Hs. rewrite Hw. unfold status_of in Hs.
    destruct (head_bucket s3_client bucket_name) as [[]|[r m|m|cls m]];
      try done. by repeat case_decide. }
  split; [| split]; intros Hs; rewrite Hs; rewrite Hs in Hquiet.
  - rewrite Hquiet by done. unfold ret, task_done. simpl.
    by rewrite decide_False by lia.
  - unfold print, task_done. simpl. rewrite Hn.
    by rewrite decide_False by lia.
  - rewrite Hquiet by done. rewrite decide_True by done.
    unfold print. cbv beta iota.
    destruct should_list_objects.
    + destruct (list_bucket_contents_console_grows s3_client bucket_name
                  (emit (Print (found_line bucket_name)) w)) as (evs & Hcon).
      destruct (list_bucket_contents s3_client bucket_name
                  (emit (Print (found_line bucket_name)) w)) as [[fo|e] w1];
        simpl in Hcon;
        [| exists evs; cbv beta iota; cbn [snd]; by rewrite Hcon, <- app_assoc].
      destruct output_file as [path|]; [destruct (truthy_str path) |].
      * pose proof (sink_block_console path bucket_name fo w1) as Hsb.
        destruct (sink_block path bucket_name fo w1) as [[u|e] w2];
          simpl in Hsb; exists evs; cbn [snd];
          rewrite ?task_done_console; by rewrite Hsb, Hcon, <- app_assoc.
      * exists evs. unfold ret. cbn [snd].
        by rewrite task_done_console, Hcon, <- app_assoc.
      * exists evs. unfold ret. cbn [snd].
        by rewrite task_done_console, Hcon, <- app_assoc.
    + unfold ret at 1. cbv beta iota.
      destruct output_file as [path|]; [destruct (truthy_str path) |].
      * pose proof (sink_block_console path bucket_name None
                      (emit (Print (found_line bucket_name)) w)) as Hsb.
        destruct (sink_block path bucket_name None
                    (emit (Print (found_line bucket_name)) w)) as [[u|e] w2];
          simpl in Hsb; exists []; cbn [snd];
          rewrite ?task_done_console; by rewrite Hsb.
      * exists []. unfold ret. cbn [snd]. by rewrite task_done_console.
      * exists []. unfold ret. cbn [snd]. by rewrite task_done_console.
Qed.

Lemma worker_iteration_reports_witness :
  worker_iteration Demo.service true (Some "out.txt") "nonexistent-xyz"
    Demo.one_pending
  = (Return tt, Demo.fresh).
Proof.
  destruct (worker_iteration_reports Demo.service true (Some "out.txt")
              "nonexistent-xyz" Demo.one_pending) as [Hquiet _]; [done |].
  rewrite Hquiet by reflexivity. reflexivity.
Defined.

(** X4: with a positive counter, one pass of the worker either returns,
    having lowered the counter by exactly one, or ends with the exception
    of [open] and leaves the counter as it was; the second case occurs
    exactly when the sink block is due and [open] refuses the file. *)
Theorem worker_iteration_acknowledges_or_dies
    (s3_client : S3Client) (should_list_objects : bool)
    (output_file : option string) (bucket_name : string) (w : world) :
  0 < unfinished_tasks w ->
  let status := status_of (head_bucket s3_client bucket_name) in
  let after := worker_iteration s3_client should_list_objects output_file
                 bucket_name w in
  (after.1 = Return tt /\ unfinished_tasks after.2 = unfinished_tasks w - 1
   /\ forall path, sink_due output_file status = Some path -> path ∉ unwritable w)
  \/ (exists path,
        sink_due output_file status = Some path /\ path ∈ unwritable w
        /\ after.1 = Raise (OtherError "PermissionError" path)
        /\ unfinished_tasks after.2 = unfinished_tasks w).
Proof.
  intros Hpos status after. subst status after.
  destruct (sink_due output_file (status_of (head_bucket s3_client bucket_name)))
    as [path|] eqn:Hdue.
  - destruct (decide (path ∈ unwritable w)) as [Hun|Hun].
    + right. exists path.
      destruct (worker_iteration_unwritable s3_client should_list_objects
                  bucket_name output_file w path Hdue Hun) as (w' & -> & Hn).
      done.
    + left.
      destruct (worker_iteration_acknowledges s3_client should_list_objects
                  bucket_name output_file w) as (w' & -> & Hn); [| done |].
      * intros p Hp. rewrite Hdue in Hp. by injection Hp as <-.
      * split; [done |]. split; [done |]. by intros p [= <-].
  - left.
    destruct (worker_iteration_acknowledges s3_client should_list_objects
                bucket_name output_file w) as (w' & -> & Hn); [| done |].
    + intros p Hp. by rewrite Hdue in Hp.
    + done.
Qed.

Lemma worker_iteration_acknowledges_or_dies_witness :
  (worker_iteration Demo.service true (Some "out.txt") "mybucket-test"
     Demo.one_pending).1 = Return tt
  /\ unfinished_tasks
       (worker_iteration Demo.service true (Some "out.txt") "mybucket-test"
          Demo.one_pending).2 = 0.
Proof.
  destruct (worker_iteration_acknowledges_or_dies Demo.service true
              (Some "out.txt") "mybucket-test" Demo.one_pending)
    as [(Hr & Hn & _)|(path & Hdue & Hun & _)]; [done | done |].
  exfalso. revert Hun. apply not_elem_of_empty.
Defined.

(** ** Runs without an output file *)

Section NoSink.

Variable args : Args.
Variable w0 : world.

Hypothesis no_sink : forall path, ~ sink_path args path.



End NoSink.



(** ** The queue *)

(** X6: the counter of the queue is always the number of items put minus
    the number of acknowledgements, and never negative; a worker that
    reaches [task_done] finds it positive, so that [task_done] never raises
    its [ValueError]. *)
Theorem unfinished_tasks_is_puts_minus_acks
    (args : Args) (wl : wordlist_file) (w0 : world) (tr : list obs) (s : sys) :
  run args wl w0 tr s ->
  unfinished_tasks (shared s) = Z.of_nat (length (puts tr)) - Z.of_nat (acks tr)
  /\ 0 <= unfinished_tasks (shared s)
  /\ (acks tr <= length (cands_in (got_items tr)))%nat
  /\ (forall i, workers s !! i = Some WTaskDone ->
        task_done (shared s)
        = (Return tt, set_unfinished (unfinished_tasks (shared s) - 1) (shared s))).
Proof.
  intros Hrun. destruct (run_queue_inv _ _ _ _ _ Hrun) as [F P C W E D].
  pose proof (length_cands_in (got_items tr)) as Hc.
  pose proof (f_equal length F) as HF. rewrite length_app in HF.
  split; [exact C |]. split; [lia |]. split; [lia |].
  intros i Hi. pose proof (run_task_done_positive _ _ _ _ _ _ Hrun Hi).
  unfold task_done. by rewrite decide_False by lia.
Qed.

Lemma unfinished_tasks_is_puts_minus_acks_witness :
  unfinished_tasks (shared Demo.taken_state)
  = Z.of_nat (length (puts Demo.taken_trace)) - Z.of_nat (acks Demo.taken_trace).
Proof.
  apply (unfinished_tasks_is_puts_minus_acks Demo.scan_args Demo.scan_wl Demo.fresh).
  apply exec_run with Demo.taken_sched. vm_compute. reflexivity.
Defined.

Lemma take_candidates_then_sentinels (cs : list string) (n k : nat) :
  exists cs' j,
    take k (map Some cs ++ replicate n (@None string))
    = (map Some cs' ++ replicate j None)%list
    /\ cs' = take k cs /\ (j <= n)%nat.
Proof.
  exists (take k cs), (min (k - length cs) n).
  rewrite take_app, length_map, take_replicate, <- fmap_take.
  split; [done |]. split; [done | lia].
Qed.

(** X7: the queue is first-in first-out and [main] is its only producer:
    workers receive the candidates in wordlist order, and sentinels only
    after every candidate put so far has been handed out.  This holds for
    every wordlist, also when reading it fails half-way and the sentinels
    are put without waiting. *)
Theorem candidates_are_dequeued_in_order
    (args : Args) (wl : wordlist_file) (w0 : world) (tr : list obs) (s : sys) :
  run args wl w0 tr s ->
  (exists j, got_items tr
             = take j (map Some (candidates wl) ++ replicate (nthreads args) None))
  /\ (exists cs j, queue s = (map Some cs ++ replicate j None)%list)
  /\ ((0 < sentinels_in (got_items tr))%nat -> cands_in (queue s) = []).
Proof.
  intros Hrun. destruct (run_queue_inv _ _ _ _ _ Hrun) as [F P C W E D].
  destruct (run_puts_prefix _ _ _ _ _ Hrun) as (k & Hk).
  destruct (take_candidates_then_sentinels (candidates wl) (nthreads args) k)
    as (cs' & j & Htake & _ & _).
  rewrite Hk, Htake in F.
  assert (Hgot : got_items tr = take (length (got_items tr)) (puts tr)).
  { rewrite Hk, Htake, F. by rewrite take_app_length. }
  assert (Hque : queue s = drop (length (got_items tr)) (map Some cs' ++ replicate j None)).
  { rewrite F. by rewrite drop_app_length. }
  split.
  { exists (min (length (got_items tr)) k). by rewrite <- take_take, <- Hk. }
  split.
  { rewrite Hque, drop_app, length_map, drop_replicate, <- fmap_drop.
    by eexists _, _. }
  intros Hsent.
  destruct (decide (length (got_items tr) <= length cs')%nat) as [Hle|Hgt].
  - exfalso.
    assert (Hg : got_items tr = map Some (take (length (got_items tr)) cs')).
    { rewrite fmap_take.
      rewrite <- (take_app_le (map Some cs') (replicate j None))
        by (by rewrite length_map).
      rewrite F at 1. by rewrite take_app_length. }
    rewrite Hg, sentinels_in_map_Some in Hsent. lia.
  - rewrite Hque, drop_app, length_map, drop_replicate.
    rewrite drop_ge by (rewrite length_map; lia).
    by rewrite cands_in_app, cands_in_replicate_None.
Qed.

Lemma candidates_are_dequeued_in_order_witness :
  exists j, got_items Demo.scan_trace
            = take j (map Some (candidates Demo.scan_wl)
                        ++ replicate (nthreads Demo.scan_args) None).
Proof.
  apply (candidates_are_dequeued_in_order Demo.scan_args Demo.scan_wl Demo.fresh
           Demo.scan_trace Demo.scan_final).
  apply exec_run with Demo.scan_sched. vm_compute. reflexivity.
Defined.

Section FinallyBlock.

Variable args : Args.
Variable w0 : world.

(** The join barrier is passed only after a clean read of the wordlist. *)
Lemma run_joined_means_read (wl : wordlist_file) (tr : list obs) (s : sys) :
  run args wl w0 tr s -> Joined ∈ tr -> read_ok wl.
Proof.
  induction 1 as [|tr s a s' o Hrun IH Hstep]; intros Hin.
  - by apply not_elem_of_nil in Hin.
  - apply elem_of_app in Hin as [Hin|Hin]; [by apply IH |].
    apply list_elem_of_singleton in Hin.
    destruct (run_queue_inv _ _ _ _ _ Hrun) as [F P C W E D].
    destruct a as [|j c].
    + step_cases Hstep; try discriminate Hin. simpl in P. by destruct P.
    + step_cases Hstep; discriminate Hin.
Qed.

End FinallyBlock.

(** X8: the [finally] block of [main] releases the workers in every case:
    once [main] joins its threads it has put one sentinel per worker behind
    the candidates it had read, whether the wordlist was read to its end,
    could not be opened, or failed while being read.  In the last two cases
    the join barrier is skipped and the failure is what the run records. *)
Theorem finally_puts_one_sentinel_per_worker
    (args : Args) (wl : wordlist_file) (w0 : world) (tr : list obs) (s : sys) :
  run args wl w0 tr s ->
  (match coord s with CJoinThreads _ | CDone => True | _ => False end ->
   puts tr = (map Some (candidates wl) ++ replicate (nthreads args) None)%list)
  /\ (Joined ∈ tr -> read_ok wl)
  /\ (~ read_ok wl -> sentinel_phase (coord s) = true ->
      exists e, SetupFailed e ∈ tr).
Proof.
  intros Hrun. destruct (run_queue_inv _ _ _ _ _ Hrun) as [F P C W E D].
  split.
  { intros Hc. destruct (coord s); simpl in *; done. }
  split; [by eapply run_joined_means_read |].
  clear F P C W E D.
  induction Hrun as [|tr s a s' o Hrun IH Hstep]; intros Hbad Hs; [done |].
  assert (Hkeep : sentinel_phase (coord s) = true ->
                  exists e, SetupFailed e ∈ (tr ++ [o])%list).
  { intros Hs0. destruct (IH Hbad Hs0) as (e & He). exists e.
    apply elem_of_app. by left. }
  assert (Hnow : forall e, o = SetupFailed e ->
                           exists e, SetupFailed e ∈ (tr ++ [o])%list).
  { intros e ->. exists e. apply elem_of_app. right.
    by apply list_elem_of_singleton. }
  destruct (run_queue_inv _ _ _ _ _ Hrun) as [F P C W E D].
  destruct a as [|j c].
  - step_cases Hstep; simpl in Hs; try done;
      try (by eapply Hnow);
      try (by apply Hkeep).
    exfalso. apply Hbad. simpl in P. by destruct P.
  - step_cases Hstep; apply Hkeep; exact Hs.
Qed.

Lemma finally_puts_one_sentinel_per_worker_witness :
  puts Demo.scan_trace
  = (map Some (candidates Demo.scan_wl)
       ++ replicate (nthreads Demo.scan_args) None)%list.
Proof.
  destruct (finally_puts_one_sentinel_per_worker Demo.scan_args Demo.scan_wl
              Demo.fresh Demo.scan_trace Demo.scan_final) as [Hp _].
  - apply exec_run with Demo.scan_sched. vm_compute. reflexivity.
  - by apply Hp.
Defined.

Section MissingWordlist.

Variable args : Args.
Variable w0 : world.
Variable e : exn.

(** When the wordlist cannot be opened no candidate exists, so every worker
    is waiting at the queue or has left its loop. *)
Lemma run_missing_idle (tr : list obs) (s : sys) :
  run args (CannotOpen e) w0 tr s ->
  cands_in (puts tr) = [] /\ acks tr = 0%nat
  /\ forall i pc, workers s !! i = Some pc -> pc = WGet \/ pc = WExited.
Proof.
  intros Hrun. destruct (run_queue_inv _ _ _ _ _ Hrun) as [F P C W E D].
  destruct (run_puts_prefix _ _ _ _ _ Hrun) as (k & Hk).
  assert (Hc : cands_in (puts tr) = []).
  { rewrite Hk. simpl. by rewrite take_replicate, cands_in_replicate_None. }
  split; [exact Hc |].
  rewrite F, cands_in_app in Hc. apply app_eq_nil in Hc as [Hg _].
  rewrite Hg in W. simpl in W. split; [lia |].
  intros i pc Hi. pose proof (sum_list_with_lookup holding _ _ _ Hi) as Hh.
  destruct pc; simpl in Hh; auto; lia.
Qed.

Lemma run_missing_log (tr : list obs) (s : sys) :
  run args (CannotOpen e) w0 tr s ->
  (OpenedWordlist ∉ tr)
  /\ (coord s <> COpen -> setup_failure args e ∈ console (shared s)).
Proof.
  induction 1 as [|tr s a s' o Hrun [IHo IHc] Hstep].
  - split; [apply not_elem_of_nil | done].
  - destruct (run_missing_idle _ _ Hrun) as (_ & _ & Hidle).
    assert (Hsame : o <> OpenedWordlist ->
                    console (shared s') = console (shared s) ->
                    coord s <> COpen ->
                    (OpenedWordlist ∉ (tr ++ [o])%list)
                    /\ (coord s' <> COpen
                        -> setup_failure args e ∈ console (shared s'))).
    { intros Ho Hcon Hc. split.
      - intros Hin. apply elem_of_app in Hin as [Hin|Hin]; [done |].
        by apply list_elem_of_singleton in Hin.
      - intros _. rewrite Hcon. by apply IHc. }
    destruct a as [|j c].
    + step_cases Hstep;
        (split;
         [ intros Hin; apply elem_of_app in Hin as [Hin|Hin]; [done |];
           by apply list_elem_of_singleton in Hin
         | intros _; simpl; rewrite ?elem_of_app, ?list_elem_of_singleton;
           first [ by right | left; by apply IHc | by apply IHc ] ]).
    + destruct (run_queue_inv _ _ _ _ _ Hrun) as [F P C W E D].
      assert (Hc : coord s <> COpen).
      { intros Hc. rewrite Hc in P. simpl in P.
        unfold step, worker_step in Hstep.
        destruct (workers s !! j) as [pc|] eqn:Hj; [| done].
        destruct (Hidle _ _ Hj) as [-> | ->]; [| done].
        rewrite P in F. symmetry in F. apply app_eq_nil in F as [_ Hq].
        by rewrite Hq in Hstep. }
      step_cases Hstep;
        try (by destruct (Hidle _ _ Heqo0));
        by apply Hsame.
Qed.

End MissingWordlist.

(** X9: when the wordlist cannot be opened, the failure is logged, the file
    is never read, the join barrier is skipped, no candidate reaches the
    queue and no worker ever probes anything; yet [main] still can be run
    to its end, every worker leaving its loop on a sentinel. *)
Theorem missing_wordlist_shuts_down_cleanly
    (args : Args) (e : exn) (w0 : world) (tr : list obs) (s : sys) :
  run args (CannotOpen e) w0 tr s ->
  (OpenedWordlist ∉ tr) /\ (Joined ∉ tr)
  /\ cands_in (puts tr) = [] /\ acks tr = 0%nat
  /\ (forall i pc, workers s !! i = Some pc -> pc = WGet \/ pc = WExited)
  /\ (coord s <> COpen -> setup_failure args e ∈ console (shared s))
  /\ (forall c, honours_max_keys c ->
        exists sched tr' s',
          exec_from args (CannotOpen e) sched tr s = Some (tr', s')
          /\ coord s' = CDone
          /\ puts tr' = replicate (nthreads args) None).
Proof.
  intros Hrun.
  destruct (run_missing_idle args w0 e tr s Hrun) as (Hc & Ha & Hidle).
  destruct (run_missing_log args w0 e tr s Hrun) as (Ho & Hlog).
  split; [exact Ho |]. split.
  { intros Hj. by apply (run_joined_means_read args w0 _ _ _ Hrun) in Hj. }
  split; [exact Hc |]. split; [exact Ha |]. split; [exact Hidle |].
  split; [exact Hlog |].
  intros c Hmax.
  destruct (run_can_complete_nocrash args w0 c Hmax (CannotOpen e))
    with (k := S (weight (nthreads args) (CannotOpen e) s)) (tr := tr) (s := s)
    as (sched & tr' & s' & Hex & _ & Hdone); try done.
  - intros tr1 s1 Hrun1 i pc Hi.
    destruct (run_missing_idle args w0 e tr1 s1 Hrun1) as (_ & _ & Hidle1).
    by destruct (Hidle1 _ _ Hi) as [-> | ->].
  - by right.
  - lia.
  - exists sched, tr', s'. split; [exact Hex |]. split; [exact Hdone |].
    pose proof (exec_from_run _ _ _ _ _ _ _ _ Hrun Hex) as Hrun'.
    destruct (run_queue_inv _ _ _ _ _ Hrun') as [F P C W E D].
    rewrite Hdone in P. exact P.
Qed.

Lemma missing_wordlist_shuts_down_cleanly_witness :
  exists sched tr' s',
    exec_from Demo.scan_args Demo.missing_wl sched []
      (main_start Demo.scan_args Demo.fresh) = Some (tr', s')
    /\ coord s' = CDone
    /\ puts tr' = replicate (nthreads Demo.scan_args) None.
Proof.
  destruct (missing_wordlist_shuts_down_cleanly Demo.scan_args
              (FileNotFoundError "No such file or directory: 'names.txt'")
              Demo.fresh [] (main_start Demo.scan_args Demo.fresh))
    as (_ & _ & _ & _ & _ & _ & Hend); [apply run_start |].
  exact (Hend Demo.service service_honours_max_keys).
Defined.

(** ** The end of [main] *)

Section MainDone.

Variable args : Args.
Variable w0 : world.

(** Once [main] is done no thread can move. *)
Lemma run_done_stuck (wl : wordlist_file) (tr : list obs) (s : sys) :
  run args wl w0 tr s -> coord s = CDone -> stuck args wl s.
Proof.
  intros Hrun Hc [|i c]; simpl.
  - unfold coord_step. by rewrite Hc.
  - unfold worker_step. destruct (workers s !! i) as [pc|] eqn:Hi; [| done].
    pose proof (run_joined _ _ _ _ _ Hrun i pc Hi) as Hf. rewrite Hc in Hf.
    by destruct pc.
Qed.

(** The completion event is the step that ends [main]. *)
Lemma run_completed (wl : wordlist_file) (tr : list obs) (s : sys) :
  run args wl w0 tr s -> Completed ∈ tr -> coord s = CDone.
Proof.
  induction 1 as [|tr s a s' o Hrun IH Hstep]; intros Hin.
  - by apply elem_of_nil in Hin.
  - apply elem_of_app in Hin as [Hin|Hin].
    + specialize (IH Hin).
      by rewrite (run_done_stuck _ _ _ Hrun IH a) in Hstep.
    + apply list_elem_of_singleton in Hin.
      destruct a as [|j c]; step_cases Hstep; done.
Qed.

End MainDone.

(** X10: whatever happened to the wordlist, when [main] is done its last
    step was the completion message, logged once and last on the console;
    every worker thread has ended, the lock is free and no thread can move
    any more. *)
Theorem main_done_is_final
    (args : Args) (wl : wordlist_file) (w0 : world) (tr : list obs) (s : sys) :
  run args wl w0 tr s ->
  coord s = CDone ->
  (exists tr0, tr = (tr0 ++ [Completed])%list /\ (Completed ∉ tr0))
  /\ last (console (shared s)) = Some (completion_message args)
  /\ (forall i pc, workers s !! i = Some pc -> finished pc = true)
  /\ lock s = None
  /\ stuck args wl s.
Proof.
  intros Hrun Hc.
  assert (Hfin : forall i pc, workers s !! i = Some pc -> finished pc = true).
  { intros i pc Hi. pose proof (run_joined _ _ _ _ _ Hrun i pc Hi) as Hf.
    by rewrite Hc in Hf. }
  assert (Hlock : lock s = None).
  { destruct (run_lock_inv _ _ _ _ _ Hrun) as [H1 _ _ _ _ _].
    destruct (lock s) as [i|] eqn:Hl; [| done].
    destruct (H1 i eq_refl) as (pc & Hi & Hcs).
    specialize (Hfin i pc Hi). by destruct pc. }
  repeat split; try done; [| | by eapply run_done_stuck].
  - inversion Hrun as [Hnil Hs|tr0 s0 a s' o Hrun0 Hstep Htr Hs].
    + subst s. discriminate Hc.
    + subst s'. exists tr0.
      assert (Hnot : coord s0 <> CDone).
      { intros H0. by rewrite (run_done_stuck _ _ _ _ _ Hrun0 H0 a) in Hstep. }
      split.
      * f_equal. destruct a as [|j c]; step_cases Hstep; simpl in Hc;
          try done; try congruence.
      * intros Hin. by apply (run_completed _ _ _ _ _ Hrun0) in Hin.
  - inversion Hrun as [Hnil Hs|tr0 s0 a s' o Hrun0 Hstep Htr Hs].
    + subst s. discriminate Hc.
    + subst s'.
      assert (Hnot : coord s0 <> CDone).
      { intros H0. by rewrite (run_done_stuck _ _ _ _ _ Hrun0 H0 a) in Hstep. }
      destruct a as [|j c]; step_cases Hstep; simpl in Hc;
        try done; try congruence.
      simpl. by rewrite last_snoc.
Qed.

Lemma main_done_is_final_witness :
  last (console (shared Demo.scan_final))
  = Some (Log INFO "Scan complete. Results saved to out.txt")
  /\ stuck Demo.scan_args Demo.scan_wl Demo.scan_final.
Proof.
  assert (Hrun : run Demo.scan_args Demo.scan_wl Demo.fresh
                   Demo.scan_trace Demo.scan_final)
    by (apply exec_run with Demo.scan_sched; vm_compute; reflexivity).
  destruct (main_done_is_final Demo.scan_args Demo.scan_wl Demo.fresh
              Demo.scan_trace Demo.scan_final Hrun eq_refl)
    as (_ & Hlast & _ & _ & Hstuck).
  split; [exact Hlast | exact Hstuck].
Defined.

(** ** Workers that end by an exception *)

Section Crashes.

Variable args : Args.
Variable w0 : world.





End Crashes.





(** ** Found buckets and the records of the output file *)

Section Recorded.

Variable args : Args.
Variable w0 : world.

Lemma found_snoc (tr : list obs) (o : obs) :
  found (tr ++ [o])
  = (found tr ++ match o with
                 | Examined _ b status =>
                     if decide (status = "FOUND") then [b] else []
                 | _ => []
                 end)%list.
Proof.
  unfold found. rewrite omap_app. destruct o; try done.
  simpl. by case_decide.
Qed.

Lemma waiting_insert (ws : list worker_pc) (j : nat) (old new : worker_pc) :
  ws !! j = Some old ->
  (waiting old ++ concat (map waiting (<[j := new]> ws)))%list
  ≡ₚ (waiting new ++ concat (map waiting ws))%list.
Proof.
  revert j. induction ws as [|pc ws IH]; intros [|j] Hj; try done; simpl in *.
  - injection Hj as ->. solve_Permutation.
  - specialize (IH j Hj).
    transitivity (waiting pc ++ waiting old
                    ++ concat (map waiting (<[j := new]> ws)))%list;
      [solve_Permutation |].
    rewrite IH. solve_Permutation.
Qed.

(** With an output file that can be opened, the buckets found so far are
    those whose record was begun and those a worker is about to record. *)
Lemma run_found_recorded (path : string) (wl : wordlist_file)
    (tr : list obs) (s : sys) :
  sink_path args path ->
  sink_usable args w0 ->
  run args wl w0 tr s ->
  found tr ≡ₚ (map fst (blocks tr) ++ concat (map waiting (workers s)))%list.
Proof.
  intros Hpath Hsink. induction 1 as [|tr s a s' o Hrun IH Hstep].
  - simpl. induction (nthreads args) as [|n IHn]; [done | exact IHn].
  - pose proof (run_no_crash args w0 wl _ _ Hsink (run_step _ _ _ _ _ _ _ _ Hrun Hstep))
      as Hnc.
    assert (Hupd : forall j old new df db,
               workers s !! j = Some old ->
               (df ++ waiting old)%list ≡ₚ (map fst db ++ waiting new)%list ->
               (found tr ++ df)%list
               ≡ₚ (map fst (blocks tr ++ db)
                     ++ concat (map waiting (<[j := new]> (workers s))))%list).
    { intros j old new df db Hj Hd.
      apply (Permutation_app_inv_r (waiting old)).
      rewrite IH, <- !app_assoc, Hd, map_app.
      pose proof (waiting_insert _ j old new Hj) as Hw.
      transitivity (map fst (blocks tr) ++ map fst db
                      ++ (waiting old
                            ++ concat (map waiting (<[j := new]> (workers s)))))%list;
        [rewrite Hw |]; solve_Permutation. }
    rewrite found_snoc, blocks_snoc.
    destruct a as [|j c].
    + step_cases Hstep; simpl; by rewrite !app_nil_r.
    + step_cases Hstep; simpl;
        try (eapply Hupd; [eassumption | simpl; reflexivity]);
        try (by specialize (Hnc j _ (list_lookup_insert_eq _ _ _
                                       (lookup_lt_Some _ _ _ Heqo0)))).
      * apply sink_due_path in Heqo1 as [_ ->]. rewrite decide_True by done.
        eapply Hupd; [eassumption | simpl; reflexivity].
      * assert (Hs : s0 <> "FOUND").
        { intros ->. destruct Hpath as [Ho Ht]. unfold sink_due in Heqo1.
          rewrite Ho, decide_True, Ht in Heqo1; done. }
        rewrite decide_False by done.
        eapply Hupd; [eassumption | simpl; reflexivity].
Qed.

End Recorded.

(** X13: with an output file that can be opened, every bucket classified
    FOUND gets its record and nothing else does: at any moment the buckets
    found are, up to order, those whose record was begun and those a worker
    is about to record; when [main] is done the records begun are exactly
    the found buckets, and the file is what it was followed by these
    records, each whole. *)
Theorem found_buckets_are_recorded
    (args : Args) (wl : wordlist_file) (w0 : world) (path : string)
    (tr : list obs) (s : sys) :
  output args = Some path ->
  truthy_str path = true ->
  path ∉ unwritable w0 ->
  run args wl w0 tr s ->
  found tr ≡ₚ (map fst (blocks tr) ++ concat (map waiting (workers s)))%list
  /\ (coord s = CDone ->
      found tr ≡ₚ map fst (blocks tr)
      /\ content (shared s) path
         = content w0 path
             +:+ text (map (fun b => sink_record b.1 (default [] b.2)) (blocks tr))).
Proof.
  intros Hout Htruthy Hw Hrun.
  assert (Hpath : sink_path args path) by done.
  assert (Hsink : sink_usable args w0).
  { intros p Hp. by rewrite (sink_path_unique args _ _ Hp Hpath). }
  pose proof (run_found_recorded args w0 path wl tr s Hpath Hsink Hrun) as Hperm.
  split; [exact Hperm |].
  intros Hc.
  assert (Hfin : forall i pc, workers s !! i = Some pc -> waiting pc = []).
  { intros i pc Hi. pose proof (run_joined _ _ _ _ _ Hrun i pc Hi) as Hf.
    rewrite Hc in Hf. by destruct pc. }
  assert (Hnone : concat (map waiting (workers s)) = []).
  { clear -Hfin. induction (workers s) as [|pc ws IH]; [done |].
    simpl. rewrite (Hfin 0%nat pc eq_refl). simpl.
    apply IH. intros i pc' Hi. by apply (Hfin (S i)). }
  split; [by rewrite Hnone, app_nil_r in Hperm |].
  destruct (run_lock_inv _ _ _ _ _ Hrun) as [H1 H2 H3 H4 H5 H6].
  assert (Hl : lock s = None).
  { destruct (lock s) as [i|] eqn:Hl; [| done].
    destruct (H1 i eq_refl) as (pc & Hi & Hcs).
    pose proof (run_joined _ _ _ _ _ Hrun i pc Hi) as Hf.
    rewrite Hc in Hf. by destruct pc. }
  rewrite H5, decide_True by done. f_equal.
  unfold pending_of in H4. rewrite Hl, app_nil_r in H4.
  rewrite H4, text_concat, map_map. f_equal.
  apply map_ext. intros [b fo]. apply text_sink_writes.
Qed.

Lemma found_buckets_are_recorded_witness :
  found Demo.scan_trace ≡ₚ map fst (blocks Demo.scan_trace)
  /\ content (shared Demo.scan_final) "out.txt"
     = content Demo.fresh "out.txt"
         +:+ text (map (fun b => sink_record b.1 (default [] b.2))
                       (blocks Demo.scan_trace)).
Proof.
  destruct (found_buckets_are_recorded Demo.scan_args Demo.scan_wl Demo.fresh
              "out.txt" Demo.scan_trace Demo.scan_final)
    as [_ Hdone].
  - reflexivity.
  - reflexivity.
  - simpl. set_solver.
  - apply exec_run with Demo.scan_sched; vm_compute; reflexivity.
  - by apply Hdone.
Defined.

(** ** The loop body and the steps *)

(** X14: the steps of a worker are the loop body of [worker] cut at its
    blocking calls: in any reachable state, a worker that holds a candidate
    and finds the lock free, scheduled alone, reaches the end of the body,
    the shared world is then what [worker_iteration] returns, the worker is
    back at [q.get()] if the body returned and is ended by the exception
    the body raised otherwise, and the lock is free again. *)
Theorem worker_steps_follow_loop_body
    (args : Args) (wl : wordlist_file) (w0 : world) (c : S3Client)
    (i : nat) (bucket_name : string) (tr : list obs) (s : sys) :
  run args wl w0 tr s ->
  workers s !! i = Some (WExamine bucket_name) ->
  lock s = None ->
  let r := worker_iteration c (list_objects args) (output args) bucket_name (shared s) in
  exists n tr' s',
    exec_from args wl (replicate n (AWorker i c)) tr s = Some (tr', s')
    /\ run args wl w0 tr' s'
    /\ shared s' = r.2
    /\ workers s' = <[i := match r.1 with
                           | Return _ => WGet
                           | Raise e => WCrashed e
                           end]> (workers s)
    /\ lock s' = None /\ queue s' = queue s /\ coord s' = coord s.
Proof.
  intros Hrun Hi Hl r.
  destruct (solo_pass args wl i c bucket_name tr s Hi Hl)
    as (n & tr' & s' & Hex & Hrest).
  exists n, tr', s'. split; [exact Hex |].
  split; [by eapply exec_from_run | exact Hrest].
Qed.

Lemma worker_steps_follow_loop_body_witness :
  exists n tr' s',
    exec_from Demo.scan_args Demo.scan_wl (replicate n (AWorker 0 Demo.service))
      Demo.taken_trace Demo.taken_state = Some (tr', s')
    /\ content (shared s') "out.txt"
       = content (worker_iteration Demo.service true (Some "out.txt") "mybucket-test"
                    (shared Demo.taken_state)).2 "out.txt"
    /\ workers s' !! 0%nat = Some WGet.
Proof.
  destruct (worker_steps_follow_loop_body Demo.scan_args Demo.scan_wl Demo.fresh
              Demo.service 0 "mybucket-test" Demo.taken_trace Demo.taken_state)
    as (n & tr' & s' & Hex & _ & Hsh & Hw & _).
  - apply exec_run with Demo.taken_sched; vm_compute; reflexivity.
  - reflexivity.
  - reflexivity.
  - exists n, tr', s'. split; [exact Hex |]. split; [by rewrite Hsh |].
    rewrite Hw. reflexivity.
Defined.

(** ** Stripping twice *)

Section StripTwice.

Lemma lstrip_chars_fixed (l : list ascii) :
  match l with [] => True | c :: _ => isspace c = false end ->
  lstrip_chars l = l.
Proof. destruct l as [|c l]; [done |]. simpl. by intros ->. Qed.

(** [strip] leaves a string without whitespace at its ends as it is. *)
Lemma strip_of_trimmed (s : string) : trimmed s -> strip s = s.
Proof.
  intros [Hl Hr]. unfold strip, rstrip_chars.
  rewrite (lstrip_chars_fixed _ Hl), (lstrip_chars_fixed _ Hr), rev_involutive.
  apply str_of_list_of_str.
Qed.

Lemma candidates_of_clean_lines (lines : list string) :
  Forall (fun line => line <> "" /\ trimmed line) lines ->
  candidates_of_lines lines = lines.
Proof.
  induction 1 as [|line lines [Hne Ht] _ IH]; [done |].
  rewrite candidates_of_lines_cons, (strip_of_trimmed _ Ht), IH.
  by destruct line.
Qed.

End StripTwice.

(** X15: the filter of the wordlist loop is idempotent.  A line that is
    not empty and has no whitespace at its ends is its own candidate, so a
    wordlist of such lines is put in the queue as it is; and reading the
    candidates of a wordlist as a wordlist again gives the same
    candidates. *)
Theorem candidates_of_lines_idempotent (lines : list string) :
  (forall line, trimmed line -> strip line = line)
  /\ (forall line, strip (strip line) = strip line)
  /\ (Forall (fun line => line <> "" /\ trimmed line) lines ->
      candidates_of_lines lines = lines)
  /\ candidates_of_lines (candidates_of_lines lines) = candidates_of_lines lines.
Proof.
  split; [exact strip_of_trimmed |].
  split; [intros line; apply strip_of_trimmed, strip_trimmed |].
  split; [apply candidates_of_clean_lines |].
  apply candidates_of_clean_lines.
  induction lines as [|line lines IH]; [constructor |].
  rewrite candidates_of_lines_cons.
  destruct (truthy_str (strip line)) eqn:Ht; [| exact IH].
  constructor; [| exact IH].
  split; [by apply truthy_str_spec | apply strip_trimmed].
Qed.

Lemma candidates_of_lines_idempotent_witness :
  candidates_of_lines ["mybucket-test"; "nonexistent-xyz"]
  = ["mybucket-test"; "nonexistent-xyz"]
  /\ candidates_of_lines (candidates_of_lines Demo.scenario_lines)
     = candidates_of_lines Demo.scenario_lines.
Proof.
  split.
  - destruct (candidates_of_lines_idempotent ["mybucket-test"; "nonexistent-xyz"])
      as (_ & _ & Hclean & _).
    apply Hclean. repeat constructor; done.
  - by destruct (candidates_of_lines_idempotent Demo.scenario_lines)
      as (_ & _ & _ & Hidem).
Defined.

(** ** A bound on the length of a scan *)

Section Bound.

Variable args : Args.
Variable w0 : world.

Lemma exec_from_lowers_weight (wl : wordlist_file) (sched : list action) :
  Forall well_served sched ->
  forall tr s tr' s',
    run args wl w0 tr s ->
    exec_from args wl sched tr s = Some (tr', s') ->
    length tr' = (length tr + length sched)%nat
    /\ (length sched + weight (nthreads args) wl s'
        <= weight (nthreads args) wl s)%nat.
Proof.
  induction 1 as [|a sched Ha Hall IH]; intros tr s tr' s' Hrun Hex; simpl in Hex.
  - injection Hex as <- <-. simpl. lia.
  - destruct (step args wl a s) as [[s1 o]|] eqn:Hstep; [| done].
    destruct (IH _ _ _ _ (run_step _ _ _ _ _ _ _ _ Hrun Hstep) Hex) as [Hlen Hw].
    assert (Hlow : (weight (nthreads args) wl s1 < weight (nthreads args) wl s)%nat).
    { destruct a as [|i c].
      - apply (step_lowers_weight args Demo.service service_honours_max_keys
                 wl ACoord s s1 o); [done | | done].
        by eapply run_workers_length.
      - apply (step_lowers_weight args c Ha wl (AWorker i c) s s1 o);
          [done | | done].
        by eapply run_workers_length. }
    rewrite length_app in Hlen. simpl in *. lia.
Qed.

End Bound.

(** X16: a scan cannot go on for ever.  When every listing honours
    [MaxKeys=10], an execution of [args.threads] workers over a wordlist of
    [L] lines has at most [18 * L + 3 * args.threads + 6] steps, whatever
    the schedule and whatever the service answers: each line costs at most
    one put, one dequeue, one probe, the sink block with at most eleven
    writes, and one acknowledgement. *)
Theorem scan_length_is_bounded
    (args : Args) (wl : wordlist_file) (w0 : world)
    (sched : list action) (tr : list obs) (s : sys) :
  Forall well_served sched ->
  exec args wl w0 sched = Some (tr, s) ->
  length tr = length sched
  /\ (length sched + weight (nthreads args) wl s
      <= 18 * length (lines_of wl) + 3 * nthreads args + 6)%nat.
Proof.
  intros Hall Hex.
  destruct (exec_from_lowers_weight args w0 wl sched Hall [] (main_start args w0)
              tr s (run_start _ _ _) Hex) as [Hlen Hw].
  split; [exact Hlen |].
  unfold weight in Hw at 2. simpl in Hw.
  rewrite sum_list_with_replicate in Hw. simpl in Hw. lia.
Qed.

Lemma scan_length_is_bounded_witness :
  length Demo.scan_trace = length Demo.scan_sched
  /\ (length Demo.scan_sched
        + weight (nthreads Demo.scan_args) Demo.scan_wl Demo.scan_final
      <= 18 * 4 + 3 * 2 + 6)%nat.
Proof.
  apply (scan_length_is_bounded Demo.scan_args Demo.scan_wl Demo.fresh
           Demo.scan_sched Demo.scan_trace Demo.scan_final).
  - repeat constructor; exact service_honours_max_keys.
  - vm_compute; reflexivity.
Defined.

(** ** What is left when [main] is done *)

Section Leftover.

Variable args : Args.
Variable w0 : world.



End Leftover.



(** ** What a whole scan records *)

Section Report.

Variable args : Args.
Variable w0 : world.




Variable c : S3Client.




End Report.




(** ** A scan with a single worker *)

Section SingleWorker.

Variable args : Args.
Variable w0 : world.

Hypothesis one_worker : nthreads args = 1%nat.




End SingleWorker.



(** ** The console during a scan *)

Section Console.

Variable args : Args.
Variable w0 : world.

Lemma check_bucket_existence_console
    (s3_client : S3Client) (bucket_name : string) (w : world) :
  exists evs,
    console (check_bucket_existence s3_client bucket_name w).2
    = (console w ++ evs)%list.
Proof.
  rewrite check_bucket_existence_world.
  destruct (head_bucket s3_client bucket_name) as [[]|[r m|m|cls m]];
    repeat case_decide; simpl;
    first [ by exists []; rewrite app_nil_r | by eexists ].
Qed.

(** Probing prints the found line for a found bucket and the error line for
    a failed probe, and removes nothing from the console. *)
Lemma probe_and_report_console
    (s3_client : S3Client) (should_list_objects : bool)
    (bucket_name : string) (w : world) :
  exists evs,
    console (probe_and_report s3_client should_list_objects bucket_name w).2
    = (console w ++ evs)%list
    /\ (status_of (head_bucket s3_client bucket_name) = "FOUND" ->
        Print (found_line bucket_name) ∈ evs)
    /\ (status_of (head_bucket s3_client bucket_name) = "ERROR" ->
        Print (error_line bucket_name) ∈ evs)
    /\ (status_of (head_bucket s3_client bucket_name) = "NOT_FOUND" -> evs = []).
Proof.
  destruct (check_bucket_existence_console s3_client bucket_name w) as (evs0 & He0).
  pose proof (check_bucket_existence_world s3_client bucket_name w) as Hw.
  destruct (check_bucket_existence_returns s3_client bucket_name w)
    as (w1 & Hc & _).
  unfold probe_and_report, bind. rewrite Hc in *. cbn [snd] in *.
  case_decide as Hs; [| case_decide as Hs'].
  - unfold print at 1. cbn [fst snd].
    destruct should_list_objects.
    + destruct (list_bucket_contents_returns s3_client bucket_name
                  (emit (Print (found_line bucket_name)) w1)) as (w2 & Hl & _).
      destruct (list_bucket_contents_console_grows s3_client bucket_name
                  (emit (Print (found_line bucket_name)) w1)) as (evs1 & He1).
      rewrite Hl in *. cbn [snd] in *. simpl in He1. rewrite He0 in He1.
      exists (evs0 ++ [Print (found_line bucket_name)] ++ evs1)%list.
      split; [unfold ret; cbn [snd]; by rewrite He1, <- !app_assoc |].
      split; [| split]; intros Hst; [| congruence | congruence].
      rewrite !elem_of_app, list_elem_of_singleton. auto.
    + simpl. rewrite He0.
      exists (evs0 ++ [Print (found_line bucket_name)])%list.
      split; [by rewrite <- app_assoc |].
      split; [| split]; intros Hst; [| congruence | congruence].
      rewrite elem_of_app, list_elem_of_singleton. auto.
  - simpl. rewrite He0.
    exists (evs0 ++ [Print (error_line bucket_name)])%list.
    split; [by rewrite <- app_assoc |].
    split; [| split]; intros Hst; [congruence | | congruence].
    rewrite elem_of_app, list_elem_of_singleton. auto.
  - simpl. exists evs0. split; [exact He0 |].
    split; [| split]; intros Hst; [congruence | congruence |].
    rewrite Hw in He0. unfold status_of in Hst.
    destruct (head_bucket s3_client bucket_name) as [[]|[r m|m|cls m]];
      try done.
    repeat case_decide; try done.
    rewrite <- (app_nil_r (console w)) in He0 at 1.
    by apply app_inv_head in He0.
Qed.

(** No step removes anything from the console. *)
Lemma step_console_grows (wl : wordlist_file) (a : action) (s s' : sys) (o : obs) :
  step args wl a s = Some (s', o) ->
  exists evs,
    console (shared s') = (console (shared s) ++ evs)%list
    /\ match o with
       | Examined _ b st =>
           (st = "FOUND" -> Print (found_line b) ∈ evs)
           /\ (st = "ERROR" -> Print (error_line b) ∈ evs)
           /\ (st = "NOT_FOUND" -> evs = [])
       | SetupFailed e => evs = [setup_failure args e]
       | Completed => evs = [completion_message args]
       | _ => evs = []
       end.
Proof.
  intros Hstep. destruct a as [|j c].
  - step_cases Hstep; simpl;
      first [ by exists []; rewrite app_nil_r | by eexists ].
  - pose proof (fun b => probe_and_report_console c (list_objects args) b (shared s))
      as Hprobe.
    pose proof (fun b => probe_and_report_returns c (list_objects args) b (shared s))
      as Hret.
    step_cases Hstep; simpl;
      try (by exists []; rewrite app_nil_r);
      try (destruct (Hret bucket_name) as (wr & Hr & _);
           destruct (Hprobe bucket_name) as (evs & He & Hf & Her & Hn);
           rewrite Hr in *; injection Heqp as <- <- <-;
           by exists evs);
      try (destruct (Hret bucket_name) as (wr & Hr & _);
           rewrite Hr in Heqp; discriminate Heqp);
      exists []; rewrite app_nil_r; (split; [| done]);
      cbv [open_append write task_done] in Heqp;
      repeat case_decide; by inversion Heqp.
Qed.

End Console.

(** X20: the console is only ever appended to.  It begins with what was
    there and the start message of [main]; from then on every step leaves
    what is on it in place, so that at any moment it holds the found line
    of every bucket classified FOUND, the error line of every failed probe
    and the log line of a failed setup. *)
Theorem console_is_append_only
    (args : Args) (wl : wordlist_file) (w0 : world) (tr : list obs) (s : sys) :
  run args wl w0 tr s ->
  (exists evs,
      console (shared s)
      = (console w0
           ++ Log INFO ("Starting scan in region: " +:+ region args +:+ " with "
                          +:+ pretty (threads args) +:+ " threads, using profile '"
                          +:+ profile args +:+ "'.")
           :: evs)%list)
  /\ (forall i b, Examined i b "FOUND" ∈ tr ->
                  Print (found_line b) ∈ console (shared s))
  /\ (forall i b, Examined i b "ERROR" ∈ tr ->
                  Print (error_line b) ∈ console (shared s))
  /\ (forall e, SetupFailed e ∈ tr -> setup_failure args e ∈ console (shared s)).
Proof.
  induction 1 as [|tr s a s' o Hrun (IHs & IHf & IHe & IHu) Hstep].
  - split; [by exists [] |].
    repeat split; intros; by match goal with H : _ ∈ [] |- _ =>
                                            apply elem_of_nil in H end.
  - destruct (step_console_grows args wl a s s' o Hstep) as (evs & Hcon & Ho).
    assert (Hkeep : forall ev, ev ∈ console (shared s) -> ev ∈ console (shared s')).
    { intros ev Hev. rewrite Hcon. apply elem_of_app. by left. }
    assert (Hnew : forall ev, ev ∈ evs -> ev ∈ console (shared s')).
    { intros ev Hev. rewrite Hcon. apply elem_of_app. by right. }
    split.
    { destruct IHs as (evs0 & Hs0). exists (evs0 ++ evs)%list.
      by rewrite Hcon, Hs0, <- app_assoc. }
    split; [| split].
    + intros i b Hin. apply elem_of_app in Hin as [Hin|Hin]; [by eapply Hkeep, IHf |].
      apply list_elem_of_singleton in Hin. subst o.
      destruct Ho as (Hf & _). by apply Hnew, Hf.
    + intros i b Hin. apply elem_of_app in Hin as [Hin|Hin]; [by eapply Hkeep, IHe |].
      apply list_elem_of_singleton in Hin. subst o.
      destruct Ho as (_ & He & _). by apply Hnew, He.
    + intros e Hin. apply elem_of_app in Hin as [Hin|Hin]; [by eapply Hkeep, IHu |].
      apply list_elem_of_singleton in Hin. subst o.
      apply Hnew. rewrite Ho. by apply list_elem_of_singleton.
Qed.

Lemma console_is_append_only_witness :
  Print (found_line "mybucket-test") ∈ console (shared Demo.scan_final).
Proof.
  destruct (console_is_append_only Demo.scan_args Demo.scan_wl Demo.fresh
              Demo.scan_trace Demo.scan_final)
    as (_ & Hf & _).
  - apply exec_run with Demo.scan_sched; vm_compute; reflexivity.
  - apply (Hf 0%nat). vm_compute. apply list_elem_of_In. simpl. tauto.
Defined.
